(** * HolaTokens: a concordance of words and the lines they occur on

    A shallow embedding of [src/HolaTokens.c].  C strings are [string]s
    (the terminating NUL is implicit), the hash table [results] is the list
    of its records in uthash's application order.  The places where the
    program leaves the C abstract machine's defined behaviour are kept
    visible: the contents of a freshly allocated record, a [strcpy] that
    does not fit its destination array, the arguments [main] passes to
    [getline], and the overflow of [line_number].  A function that has no
    outcome the C standard fixes returns [None]. *)

From Stdlib Require Import List Bool Arith ZArith NArith Lia.
From Stdlib Require Import Ascii String Decimal DecimalNat DecimalString.
From Stdlib Require Import Sorted Permutation.
Import ListNotations.

Set Warnings "-abstract-large-number".

Open Scope string_scope.
Open Scope list_scope.

(** ** The C library, as far as the program uses it *)

(** The byte that terminates a C string. *)
Definition NUL : ascii := Ascii.zero.

(** A [char] read as [unsigned char]. *)
Definition uchar (c : ascii) : N := N_of_ascii c.

(** A buffer read as a C string: the bytes before the first NUL. *)
Fixpoint cstr (buf : string) : string :=
  match buf with
  | "" => ""
  | String c p => if Ascii.eqb c NUL then "" else String c (cstr p)
  end.

Definition strlen (s : string) : nat := String.length s.

(** [isalpha] and [tolower] in the "C" locale (the program never calls
    [setlocale]): the letters are the 52 ASCII ones, and no byte above 127
    is a letter. *)
Definition isupper (c : ascii) : bool :=
  ((65 <=? uchar c) && (uchar c <=? 90))%N.

Definition islower (c : ascii) : bool :=
  ((97 <=? uchar c) && (uchar c <=? 122))%N.

Definition isalpha (c : ascii) : bool := isupper c || islower c.

Definition tolower (c : ascii) : ascii :=
  if isupper c then ascii_of_N (uchar c + 32) else c.

(** [strstr haystack needle]: the suffix of [haystack] that starts at the
    first occurrence of [needle], [None] for a NULL result;
    [starts_with needle s] compares the bytes of [needle] with those at
    the start of [s]. *)
Fixpoint starts_with (needle s : string) : bool :=
  match needle, s with
  | "", _ => true
  | String a needle', String b s' =>
      if Ascii.eqb a b then starts_with needle' s' else false
  | String _ _, "" => false
  end.

Fixpoint strstr (haystack needle : string) : option string :=
  if starts_with needle haystack then Some haystack
  else match haystack with
       | "" => None
       | String _ rest => strstr rest needle
       end.

(** [strcmp]: the difference of the first two bytes that differ, compared
    as [unsigned char]; [0] for equal strings. *)
Fixpoint strcmp (a b : string) : Z :=
  match a, b with
  | "", "" => 0
  | "", String d _ => - Z.of_N (uchar d)
  | String c _, "" => Z.of_N (uchar c)
  | String c a', String d b' =>
      if Ascii.eqb c d then strcmp a' b'
      else Z.of_N (uchar c) - Z.of_N (uchar d)
  end.

(** [strcpy (dst, src)] stores the bytes of [src] and then the terminating
    NUL: [strlen src + 1] bytes, at the indices [0 .. strlen src] of
    [dst]. *)
Definition strcpy_writes (src : string) : list (nat * ascii) :=
  combine (seq 0 (S (strlen src))) (list_ascii_of_string src ++ [NUL]).

(** [strcpy] into an array of [size] bytes.  A store at an index that is
    not below [size] is outside the array; the program's behaviour is then
    undefined, which is the [None] result. *)
Definition strcpy (size : nat) (src : string) : option string :=
  if forallb (fun w => Nat.ltb (fst w) size) (strcpy_writes src)
  then Some src else None.

(** [sprintf (buf, " %d", n)] for the positive values [line_number]
    takes. *)
Definition sprintf_d (n : nat) : string :=
  (" " ++ NilZero.string_of_uint (Nat.to_uint n))%string.

(** The lines of a stream: each line runs up to and including the next
    newline, the last one to the end of the stream when no newline ends
    it.  These are the buffers the successive calls of [getline] fill
    before the call that returns [-1], when the calls are defined; whether
    the calls [main] makes are defined is [getline_defined] below. *)
Definition newline : ascii := ascii_of_N 10.

Fixpoint read_lines (stdin : string) : list string :=
  match stdin with
  | "" => []
  | String c rest =>
      if Ascii.eqb c newline then String c "" :: read_lines rest
      else match read_lines rest with
           | [] => [String c ""]
           | line :: lines => String c line :: lines
           end
  end.

(** [getline (&lineptr, &n, stream)] is defined when [n] points to a
    [size_t] and [*lineptr] is a null pointer or a buffer that [malloc]
    returned (a buffer an earlier call left there).  [main] declares
    [char *test_line;] without a value (line 144) and passes
    [&read_byte_request], the address of an [int] (lines 143 and 158), so
    what its calls do rests on two facts the program does not fix and a
    [machine] records: the size of [size_t] (the call reads and writes a
    [size_t] where an [int] of [sizeof_int] bytes stands), and whether
    the indeterminate value of [test_line] is a null pointer.  [int] is 32
    bits wide, as [hash] takes it. *)
Record machine : Type := {
  sizeof_size_t : nat;
  test_line_null : bool
}.

Definition sizeof_int : nat := 4.

Definition INT_MAX : Z := 2147483647.

(** What [test_line] holds at a call of [getline]: the indeterminate value
    of its declaration, or the buffer of the call before. *)
Inductive pointer : Type :=
| indeterminate
| buffer.

Definition getline_defined (m : machine) (lineptr : pointer) : bool :=
  Nat.eqb (sizeof_size_t m) sizeof_int &&
  match lineptr with
  | indeterminate => test_line_null m
  | buffer => true
  end.

(** [strtok_r] with the one delimiter [" "]: [skip_delimiters] is the
    [strspn] step, [token_end] splits at the next delimiter (which the
    call overwrites with NUL) and returns the token with the new
    [saveptr]. *)
Definition delimitor : ascii := " "%char.

Fixpoint skip_delimiters (s : string) : string :=
  match s with
  | "" => ""
  | String c p => if Ascii.eqb c delimitor then skip_delimiters p else s
  end.

Fixpoint token_end (s : string) : string * string :=
  match s with
  | "" => ("", "")
  | String c p =>
      if Ascii.eqb c delimitor then ("", p)
      else let (token, saveptr) := token_end p in (String c token, saveptr)
  end.

Definition strtok_r (s : string) : option (string * string) :=
  match skip_delimiters s with
  | "" => None
  | t => Some (token_end t)
  end.

(** ** HolaTokens.c *)

Definition LONGEST_WORD_LEN : nat := 45.
Definition LONGEST_LINE_SUMMARY_LEN : nat := 16535.

(** [struct result_struct]; [sizeof_word] and [sizeof_line_summary] are
    the sizes of its two [char] arrays. *)
Record result_struct : Type := mk_result {
  key : Z;
  word : string;
  line_summary : string
}.

Definition sizeof_word : nat := LONGEST_WORD_LEN.
Definition sizeof_line_summary : nat := LONGEST_LINE_SUMMARY_LEN.

(** The hash table [results]: its records in application order, which is
    the order [print_results] walks ([hh.next]). *)
Definition table : Type := list result_struct.

(** Modelled from the spec: [HASH_FIND_INT] of uthash.h, which is not among
    the sources.  "Look up key in the map": the record stored under [k],
    if there is one. *)
Fixpoint HASH_FIND_INT (results : table) (k : Z) : option result_struct :=
  match results with
  | [] => None
  | s :: rest => if Z.eqb (key s) k then Some s else HASH_FIND_INT rest k
  end.

(** Modelled from the spec: [HASH_ADD_INT] of uthash.h.  The new record
    becomes the last one in application order. *)
Definition HASH_ADD_INT (results : table) (s : result_struct) : table :=
  results ++ [s].

(** The stores [add_result] makes through the pointer [s] it found: they
    change the record stored under [k] in place. *)
Fixpoint store (results : table) (k : Z) (s : result_struct) : table :=
  match results with
  | [] => []
  | r :: rest => if Z.eqb (key r) k then s :: rest else r :: store rest k s
  end.

(** [hash]: [hash = 31*hash + word[i]] in [unsigned int] (32 bits), the
    [char] promoted as a signed byte, and the result converted to [int]. *)
Definition char_to_int (c : ascii) : Z :=
  let n := Z.of_N (uchar c) in if Z.ltb n 128 then n else (n - 256)%Z.

Definition to_unsigned (z : Z) : Z := (z mod 2 ^ 32)%Z.

Definition to_int (u : Z) : Z :=
  if Z.ltb u (2 ^ 31) then u else (u - 2 ^ 32)%Z.

Fixpoint hash_loop (h : Z) (word : string) : Z :=
  match word with
  | "" => h
  | String c rest => hash_loop (to_unsigned (31 * h + char_to_int c)) rest
  end.

Definition hash (word : string) : Z := to_int (hash_loop 0 word).

(** [name_sort], the comparison [sort_by_name] hands to [HASH_SORT]. *)
Definition name_sort (a b : result_struct) : Z := strcmp (word a) (word b).

(** Modelled from the spec: [HASH_SORT] of uthash.h, "total order by the
    word field ... ascending", ties "resolved by the sort routine's native
    stability".  uthash sorts the application-order list with a stable
    merge sort that keeps the left element when [cmp (left, right) <= 0];
    inserting each record in front of the sorted rest under the same test
    is the same stable order. *)
Fixpoint sort_insert (cmp : result_struct -> result_struct -> Z)
    (s : result_struct) (sorted : table) : table :=
  match sorted with
  | [] => [s]
  | r :: rest =>
      if Z.leb (cmp s r) 0 then s :: r :: rest
      else r :: sort_insert cmp s rest
  end.

Fixpoint HASH_SORT (results : table)
    (cmp : result_struct -> result_struct -> Z) : table :=
  match results with
  | [] => []
  | s :: rest => sort_insert cmp s (HASH_SORT rest cmp)
  end.

Definition sort_by_name (results : table) : table :=
  HASH_SORT results name_sort.

(** [print_results]: one [printf ("%s%s\n", s->word, s->line_summary)] per
    record. *)
Definition report_line (s : result_struct) : string :=
  (word s ++ line_summary s ++ String newline "")%string.

Fixpoint print_results (results : table) : string :=
  match results with
  | [] => ""
  | s :: rest => (report_line s ++ print_results rest)%string
  end.

(** The scan of an incoming line (main, lines 162-168): every byte up to
    the terminator is replaced in place; what follows a NUL byte inside
    the buffer is never visited. *)
Definition apostrophe : ascii := ascii_of_N 39.

Definition scan_char (c : ascii) : ascii :=
  if negb (isalpha c) && negb (Ascii.eqb c apostrophe) then " "%char
  else if isalpha c then tolower c
  else c.

Fixpoint scan_line (test_line : string) : string :=
  match test_line with
  | "" => ""
  | String c p =>
      if Ascii.eqb c NUL then test_line
      else String (scan_char c) (scan_line p)
  end.

(** The tokens the [strtok_r] loop of [main] visits, in order.  Each call
    leaves a shorter [saveptr], so [S (strlen line)] rounds are enough. *)
Fixpoint strtok_loop (fuel : nat) (s : string) : list string :=
  match fuel with
  | 0 => []
  | S fuel' =>
      match strtok_r s with
      | None => []
      | Some (token, saveptr) => token :: strtok_loop fuel' saveptr
      end
  end.

Definition line_tokens (test_line : string) : list string :=
  let s := cstr (scan_line test_line) in strtok_loop (S (strlen s)) s.

Section Program.

(** The machine the program runs on. *)
Variable m : machine.

(** [malloc] does not initialise the block it returns and [add_result]
    never stores into [line_summary] before reading it: [fresh n] is the C
    string found in the [line_summary] array of the [n]-th record the
    program allocates. *)
Variable fresh : nat -> string.

(** Lines 81-96: the line number is appended when the summary is still
    short enough and does not contain it yet.  The [strcat] stays inside
    [line_summary] for every line number shorter than the margin of 16
    bytes ([strcat_fits] below), as " %d" of an [int] is. *)
Definition cat_line_number (summary line_number : string) : string :=
  let len := strlen summary in
  if Nat.ltb len (sizeof_line_summary - 16) then
    match strstr summary line_number with
    | None => (summary ++ line_number)%string
    | Some _ => summary
    end
  else summary.

(** [add_result] (lines 57-98).  [ERROR] and [DEBUG] are [FALSE], so the
    [printf]s are dead code.  The record [s] points to is the one stored
    under [k]: either the one [HASH_FIND_INT] found or the block just
    allocated and added, whose [word] is indeterminate until the [strcpy]
    (the model holds [""] there) and whose [line_summary] is [fresh]. *)
Definition add_result (k : Z) (name line_number : string)
    (results : table) : option table :=
  (* reject outrageously long words *)
  if Nat.ltb sizeof_word (strlen name) then Some results
  else
    (* check if exists; if no entry found, create an entry *)
    let (s, results) :=
      match HASH_FIND_INT results k with
      | Some s => (s, results)
      | None =>
          let s := mk_result k "" (fresh (List.length results)) in
          (s, HASH_ADD_INT results s)
      end in
    (* set word *)
    match strcpy sizeof_word name with
    | None => None
    | Some w =>
        Some (store results k
                (mk_result (key s) w
                   (cat_line_number (line_summary s) line_number)))
    end.

(** The summary [add_result] reads at line 81 for the key [k]: that of
    the record found, or what the fresh block holds. *)
Definition summary_read (results : table) (k : Z) : string :=
  match HASH_FIND_INT results k with
  | Some s => line_summary s
  | None => fresh (List.length results)
  end.

(** The body of the token loop (lines 178-183): hash the token, render the
    line number, add to the table. *)
Definition upsert (token : string) (line_number : nat) (results : table)
    : option table :=
  add_result (hash token) token (sprintf_d line_number) results.

Fixpoint add_tokens (tokens : list string) (line_number : nat)
    (results : table) : option table :=
  match tokens with
  | [] => Some results
  | token :: rest =>
      match upsert token line_number results with
      | Some results' => add_tokens rest line_number results'
      | None => None
      end
  end.

(** The [while] loop of [main] (lines 155-192) over the lines left in the
    stream; [lineptr] is what [test_line] holds.  Each round increments
    the [int] [line_number], which overflows at [INT_MAX], and then calls
    [getline], also the last round, in which [getline] returns [-1].  The
    number of bytes read goes into the [int] [read_byte_actual]: for a
    line of more than [INT_MAX] bytes the conversion is
    implementation-defined, and the model gives the run no outcome.  A
    line [getline] returns has at least one byte, so the test
    [read_byte_actual > 0] holds for it (and a buffer without a byte
    would have no token). *)
Fixpoint main_loop (lines : list string) (lineptr : pointer)
    (line_number : nat) (results : table) : option table :=
  (* ++line_number *)
  if (INT_MAX <=? Z.of_nat line_number)%Z then None
  else
    let line_number := S line_number in
    (* read_byte_actual = getline (&test_line, &read_byte_request, stdin) *)
    if negb (getline_defined m lineptr) then None
    else
      match lines with
      | [] => Some results
      | test_line :: rest =>
          if (INT_MAX <? Z.of_nat (strlen test_line))%Z then None
          else
            match add_tokens (line_tokens test_line) line_number results with
            | Some results' => main_loop rest buffer line_number results'
            | None => None
            end
      end.

(** [main]: what the program writes to standard output.  [test_line]
    starts indeterminate, [line_number] at 0 and [results] empty. *)
Definition main (stdin : string) : option string :=
  match main_loop (read_lines stdin) indeterminate 0 [] with
  | Some results => Some (print_results (sort_by_name results))
  | None => None
  end.

End Program.

(** The whole run as the sequence of [upsert] calls it makes: the tokens of
    each line, paired with the line's number. *)
Fixpoint line_ops (lines : list string) (line_number : nat)
    : list (string * nat) :=
  match lines with
  | [] => []
  | test_line :: rest =>
      map (fun token => (token, S line_number)) (line_tokens test_line)
        ++ line_ops rest (S line_number)
  end.

Fixpoint run_upserts (fresh : nat -> string) (ops : list (string * nat))
    (results : table) : option table :=
  match ops with
  | [] => Some results
  | (token, line_number) :: rest =>
      match upsert fresh token line_number results with
      | Some results' => run_upserts fresh rest results'
      | None => None
      end
  end.

(** ** Notions the properties are stated with *)

(** An allocator whose blocks read as empty strings (zero-filled memory). *)
Definition zeroed : nat -> string := fun _ => "".

(** A machine on which the calls of [getline] are defined: [size_t] has
    the size of [int] and [test_line] happens to start as a null pointer;
    and one with a [size_t] of 8 bytes. *)
Definition ilp32 : machine :=
  {| sizeof_size_t := 4; test_line_null := true |}.

Definition lp64 : machine :=
  {| sizeof_size_t := 8; test_line_null := true |}.

(** The lines are few enough for [line_number] and short enough for
    [read_byte_actual]. *)
Definition fit_int (lines : list string) (line_number : nat) : Prop :=
  (Z.of_nat (line_number + List.length lines) < INT_MAX)%Z /\
  Forall (fun test_line => (Z.of_nat (strlen test_line) <= INT_MAX)%Z) lines.

(** The truncation threshold. *)
Definition summary_limit : nat := sizeof_line_summary - 16.

(** [needle] occurs in [haystack]. *)
Definition occurs_in (needle haystack : string) : Prop :=
  exists before after, haystack = (before ++ needle ++ after)%string.

(** The characters words are made of, and the strings made of them. *)
Definition word_char (c : ascii) : bool :=
  isalpha c || Ascii.eqb c apostrophe.

Fixpoint all_chars (p : ascii -> bool) (s : string) : bool :=
  match s with
  | "" => true
  | String c rest => p c && all_chars p rest
  end.

Fixpoint map_chars (f : ascii -> ascii) (s : string) : string :=
  match s with
  | "" => ""
  | String c rest => String (f c) (map_chars f rest)
  end.

Definition lowercase (s : string) : string := map_chars tolower s.

Fixpoint last_char (s : string) : option ascii :=
  match s with
  | "" => None
  | String c "" => Some c
  | String _ rest => last_char rest
  end.

Definition first_char (s : string) : option ascii :=
  match s with
  | "" => None
  | String c _ => Some c
  end.

Definition no_word_char (c : option ascii) : Prop :=
  match c with
  | None => True
  | Some c => word_char c = false
  end.

(** [run] is a maximal run of alphabetic and apostrophe characters of
    [line]: a non-empty stretch of such characters with no such character
    right before or right after it. *)
Definition maximal_run (line run : string) : Prop :=
  exists before after,
    line = (before ++ run ++ after)%string /\
    run <> "" /\
    all_chars word_char run = true /\
    no_word_char (last_char before) /\
    no_word_char (first_char after).

(** [token] is one of the stretches [strtok_r] cuts [s] into: non-empty,
    free of the delimiter, with a delimiter or an end of [s] on either
    side. *)
Definition free_of_delimitor (s : string) : bool :=
  all_chars (fun c => negb (Ascii.eqb c delimitor)) s.

Definition delimited (c : option ascii) : Prop :=
  match c with
  | None => True
  | Some c => c = delimitor
  end.

Definition token_of (s token : string) : Prop :=
  exists before after,
    s = (before ++ token ++ after)%string /\
    token <> "" /\
    free_of_delimitor token = true /\
    delimited (last_char before) /\
    delimited (first_char after).

(** The order a comparison function induces. *)
Definition ordered_by (cmp : result_struct -> result_struct -> Z)
    (a b : result_struct) : Prop := (cmp a b <= 0)%Z.

(** Byte-wise (ordinal) order of strings. *)
Inductive bytewise_le : string -> string -> Prop :=
| bytewise_nil : forall b, bytewise_le "" b
| bytewise_lt : forall c d a b,
    (uchar c < uchar d)%N -> bytewise_le (String c a) (String d b)
| bytewise_eq : forall c a b,
    bytewise_le a b -> bytewise_le (String c a) (String c b).

(** The most recent token of [ops] that [add_result] stores under [k]:
    one that hashes to [k] and fits the [word] array with its terminator. *)
Fixpoint last_stored (k : Z) (ops : list (string * nat))
    (current : option string) : option string :=
  match ops with
  | [] => current
  | (token, _) :: rest =>
      last_stored k rest
        (if Z.eqb (hash token) k && Nat.ltb (strlen token) sizeof_word
         then Some token else current)
  end.

(** Decimal digits, and the decimal numeral [sprintf] writes for [n]. *)
Definition isdigit (c : ascii) : bool :=
  ((48 <=? uchar c) && (uchar c <=? 57))%N.

Definition decimal (n : nat) : string :=
  NilZero.string_of_uint (Nat.to_uint n).


(** ** The rest of HolaTokens.c *)

(** [find_result] (lines 100-109): the record under [k], NULL when there
    is none; [DEBUG] is [FALSE]. *)
Definition find_result (results : table) (k : Z) : option result_struct :=
  HASH_FIND_INT results k.

(** The value of the bytes of a word as the digits of a number in base 31,
    most significant first. *)
Fixpoint polynomial (word : string) : Z :=
  match word with
  | "" => 0
  | String c rest =>
      (char_to_int c * 31 ^ Z.of_nat (strlen rest) + polynomial rest)%Z
  end.


(** The summary made of the markers of the line numbers [ns], in that
    order. *)
Fixpoint summary_of (ns : list nat) : string :=
  match ns with
  | [] => ""
  | n :: rest => (sprintf_d n ++ summary_of rest)%string
  end.

(** What the table says about the key [k] after the calls [ops] with
    zero-filled blocks: no record when no call stored under [k]; else a
    record whose summary lists, in increasing order and once each, line
    numbers of calls that stored under [k], and all of them while the
    summary is below the truncation threshold. *)
Definition stores_under (k : Z) (op : string * nat) : Prop :=
  hash (fst op) = k /\ strlen (fst op) < LONGEST_WORD_LEN.

Definition summary_lists (k : Z) (ops : list (string * nat))
    (summary : string) : Prop :=
  exists ns,
    summary = summary_of ns /\
    StronglySorted lt ns /\
    (forall n, In n ns ->
               exists token, In (token, n) ops /\ stores_under k (token, n)) /\
    (strlen summary < summary_limit ->
     forall token n, In (token, n) ops -> stores_under k (token, n) ->
                     In n ns).

(** A text as its lines, each followed by a newline; the lines of a text,
    which end at its newlines; and the word on a line of the report: what
    stands before the first space. *)
Fixpoint lines_text (lines : list string) : string :=
  match lines with
  | [] => ""
  | line :: rest => (line ++ String newline (lines_text rest))%string
  end.

Fixpoint text_lines (text : string) : list string :=
  match text with
  | "" => []
  | String c rest =>
      if Ascii.eqb c newline then "" :: text_lines rest
      else match text_lines rest with
           | [] => [String c ""]
           | line :: lines => String c line :: lines
           end
  end.

Fixpoint line_word (line : string) : string :=
  match line with
  | "" => ""
  | String c rest =>
      if Ascii.eqb c " " then "" else String c (line_word rest)
  end.


(** A summary that is empty or starts with a space and is made of digits
    and spaces. *)
Definition plain_summary (summary : string) : Prop :=
  delimited (first_char summary) /\
  all_chars (fun c => isdigit c || Ascii.eqb c delimitor) summary = true.


(** ** Inputs of the examples *)

Fixpoint repeat_string (n : nat) (s : string) : string :=
  match n with
  | 0 => ""
  | S n' => (s ++ repeat_string n' s)%string
  end.

Definition sample : string :=
  ("Dogs chase cats." ++ String newline ""
   ++ "Cats chase dogs!" ++ String newline "")%string.






(** A token of 46 bytes, one of exactly 45, and a word of seven letters
    with the hash of the first. *)
Definition token46 : string := repeat_string 46 "a".

Definition token45 : string := repeat_string 45 "a".

Definition collider : string := "fzyllni".

(** A buffer with a NUL byte in it. *)
Definition nul_line : string :=
  String "A" (String NUL (String "B" (String newline ""))).

(** The report the sample is expected to produce. *)
Definition sample_report : string :=
  ("cats 1 2" ++ String newline ""
   ++ "chase 1 2" ++ String newline ""
   ++ "dogs 1 2" ++ String newline "")%string.

(** The table the sample leaves. *)
Definition sample_table : table :=
  [ mk_result (hash "dogs") "dogs" " 1 2";
    mk_result (hash "chase") "chase" " 1 2";
    mk_result (hash "cats") "cats" " 1 2" ].

(** A fact about every byte, checked on each of the 256. *)
Ltac each_byte c :=
  destruct c as [[] [] [] [] [] [] [] []]; vm_compute; auto.

(** * Properties *)

(** ** Strings *)

Lemma append_empty_r (s : string) : (s ++ "")%string = s.
Proof.
  induction s as [|c s IH]; simpl; [reflexivity | now rewrite IH].
Qed.

Lemma append_assoc (a b c : string) :
  ((a ++ b) ++ c)%string = (a ++ (b ++ c))%string.
Proof.
  induction a as [|x a IH]; simpl; [reflexivity | now rewrite IH].
Qed.

Lemma strlen_append (a b : string) :
  strlen (a ++ b) = strlen a + strlen b.
Proof.
  unfold strlen; induction a as [|x a IH]; simpl; [reflexivity | now rewrite IH].
Qed.

Lemma starts_with_append (n rest : string) :
  starts_with n (n ++ rest) = true.
Proof.
  induction n as [|c n IH]; simpl; [reflexivity|].
  now rewrite Ascii.eqb_refl.
Qed.

Lemma starts_with_split (n h : string) :
  starts_with n h = true -> exists rest, h = (n ++ rest)%string.
Proof.
  revert h; induction n as [|c n IH]; intros h Hp.
  - now exists h.
  - destruct h as [|d h]; simpl in Hp; [discriminate|].
    destruct (Ascii.eqb_spec c d) as [->|_]; [|discriminate].
    destruct (IH h Hp) as [rest ->]. now exists rest.
Qed.

Lemma strstr_unfold (h n : string) :
  strstr h n =
  if starts_with n h then Some h
  else match h with
       | "" => None
       | String _ rest => strstr rest n
       end.
Proof. destruct h; reflexivity. Qed.

(** [strstr] finds the needle exactly when it occurs in the haystack. *)
Lemma strstr_occurs (h n : string) : strstr h n <> None <-> occurs_in n h.
Proof.
  split.
  - induction h as [|c h IH]; rewrite strstr_unfold;
      destruct (starts_with n _) eqn:Hp;
      try (intros _; destruct (starts_with_split _ _ Hp) as [rest E];
           now exists "", rest).
    + intro Hs; now elim Hs.
    + intros Hs. destruct (IH Hs) as (b & a & ->).
      now exists (String c b), a.
  - intros (b & a & ->). induction b as [|c b IH]; rewrite strstr_unfold.
    + change ("" ++ n ++ a)%string with (n ++ a)%string.
      rewrite starts_with_append. discriminate.
    + destruct (starts_with n _); [discriminate|]. exact IH.
Qed.

Lemma strstr_none (h n : string) : strstr h n = None <-> ~ occurs_in n h.
Proof.
  rewrite <- strstr_occurs. destruct (strstr h n); split; intro H;
    try congruence. elim H; discriminate.
Qed.

Lemma occurs_in_append (n h rest : string) :
  occurs_in n h -> occurs_in n (h ++ rest).
Proof.
  intros (b & a & ->). exists b, (a ++ rest)%string.
  now rewrite !append_assoc.
Qed.

Lemma occurs_in_suffix (n h : string) : occurs_in n (h ++ n).
Proof.
  exists h, "". now rewrite append_empty_r.
Qed.

(** ** Lines 81-96 of [add_result] *)

Lemma cat_line_number_unfold (summary line_number : string) :
  cat_line_number summary line_number =
  if Nat.ltb (strlen summary) summary_limit then
    match strstr summary line_number with
    | None => (summary ++ line_number)%string
    | Some _ => summary
    end
  else summary.
Proof. reflexivity. Qed.

Lemma margin : summary_limit + 16 = sizeof_line_summary.
Proof. vm_compute. reflexivity. Qed.

Lemma strcat_fits (summary line_number : string) :
  strlen summary < summary_limit -> strlen line_number < 16 ->
  strlen (summary ++ line_number) + 1 <= sizeof_line_summary.
Proof.
  intros Hs Hl. rewrite strlen_append, <- margin. lia.
Qed.

Lemma cat_truncated (summary line_number : string) :
  summary_limit <= strlen summary ->
  cat_line_number summary line_number = summary.
Proof.
  intro H. rewrite cat_line_number_unfold.
  destruct (Nat.ltb_spec (strlen summary) summary_limit); [lia | reflexivity].
Qed.

Lemma cat_occurs (summary line_number : string) :
  strlen summary < summary_limit ->
  occurs_in line_number (cat_line_number summary line_number).
Proof.
  intro H. rewrite cat_line_number_unfold.
  destruct (Nat.ltb_spec (strlen summary) summary_limit); [|lia].
  destruct (strstr summary line_number) eqn:E.
  - apply strstr_occurs. congruence.
  - apply occurs_in_suffix.
Qed.

Lemma cat_extends (summary line_number : string) :
  exists rest, cat_line_number summary line_number = (summary ++ rest)%string.
Proof.
  rewrite cat_line_number_unfold.
  destruct (Nat.ltb (strlen summary) summary_limit);
    [destruct (strstr summary line_number)|];
    (now exists line_number) || (exists ""; now rewrite append_empty_r).
Qed.

Lemma cat_idempotent (summary line_number : string) :
  cat_line_number (cat_line_number summary line_number) line_number
  = cat_line_number summary line_number.
Proof.
  rewrite (cat_line_number_unfold summary).
  destruct (Nat.ltb_spec (strlen summary) summary_limit) as [Hlt|Hge].
  - destruct (strstr summary line_number) eqn:E.
    + rewrite cat_line_number_unfold, E.
      now destruct (Nat.ltb (strlen summary) summary_limit).
    + rewrite cat_line_number_unfold.
      destruct (strstr (summary ++ line_number) line_number) eqn:E'.
      * now destruct (Nat.ltb _ _).
      * apply strstr_none in E'. elim E'. apply occurs_in_suffix.
  - now apply cat_truncated.
Qed.

(** ** [strcpy] into an array *)

Lemma list_ascii_length (s : string) :
  List.length (list_ascii_of_string s) = strlen s.
Proof.
  unfold strlen; induction s as [|c s IH]; simpl; [reflexivity | now rewrite IH].
Qed.

Lemma combine_seq_below (size m a : nat) (l : list ascii) :
  a + m <= size ->
  forallb (fun w => Nat.ltb (fst w) size) (combine (seq a m) l) = true.
Proof.
  revert a l; induction m as [|m IH]; intros a l H; simpl; [reflexivity|].
  destruct l as [|x l]; simpl; [reflexivity|].
  rewrite IH by lia. rewrite andb_true_r. apply Nat.ltb_lt. lia.
Qed.

Lemma combine_seq_last (a : nat) (l : list ascii) (x : ascii) :
  In (a + List.length l, x) (combine (seq a (S (List.length l))) (l ++ [x])).
Proof.
  revert a; induction l as [|y l IH]; intro a.
  - left. now rewrite Nat.add_0_r.
  - right. change (List.length (y :: l)) with (S (List.length l)).
    rewrite Nat.add_succ_r. exact (IH (S a)).
Qed.

(** The store of the terminator, at index [strlen src]. *)
Lemma strcpy_writes_terminator (src : string) :
  In (strlen src, NUL) (strcpy_writes src).
Proof.
  unfold strcpy_writes. rewrite <- list_ascii_length.
  exact (combine_seq_last 0 (list_ascii_of_string src) NUL).
Qed.

Lemma strcpy_writes_length (src : string) :
  List.length (strcpy_writes src) = S (strlen src).
Proof.
  unfold strcpy_writes.
  rewrite length_combine, length_seq, length_app, list_ascii_length.
  change (List.length [NUL]) with 1.
  now rewrite Nat.add_1_r, Nat.min_id.
Qed.

Lemma strcpy_fits (size : nat) (src : string) :
  strlen src < size -> strcpy size src = Some src.
Proof.
  intro H. unfold strcpy, strcpy_writes.
  now rewrite combine_seq_below by lia.
Qed.

Lemma strcpy_overflow (size : nat) (src : string) :
  size <= strlen src -> strcpy size src = None.
Proof.
  intro H. unfold strcpy.
  destruct (forallb _ (strcpy_writes src)) eqn:E; [|reflexivity].
  rewrite forallb_forall in E.
  specialize (E _ (strcpy_writes_terminator src)). simpl in E.
  apply Nat.ltb_lt in E. lia.
Qed.

(** ** The table *)

Lemma find_key (results : table) (k : Z) (s : result_struct) :
  HASH_FIND_INT results k = Some s -> key s = k.
Proof.
  induction results as [|r rest IH]; simpl; [discriminate|].
  destruct (Z.eqb_spec (key r) k); [congruence | exact IH].
Qed.

Lemma find_In (results : table) (k : Z) (s : result_struct) :
  HASH_FIND_INT results k = Some s -> In s results.
Proof.
  induction results as [|r rest IH]; simpl; [discriminate|].
  destruct (Z.eqb (key r) k); [left; congruence | right; auto].
Qed.

Lemma find_app (results more : table) (k : Z) :
  HASH_FIND_INT (results ++ more) k =
  match HASH_FIND_INT results k with
  | Some s => Some s
  | None => HASH_FIND_INT more k
  end.
Proof.
  induction results as [|r rest IH]; simpl; [reflexivity|].
  now destruct (Z.eqb (key r) k).
Qed.

Lemma find_store_same (results : table) (k : Z) (s s' : result_struct) :
  HASH_FIND_INT results k = Some s -> key s' = k ->
  HASH_FIND_INT (store results k s') k = Some s'.
Proof.
  intros H Hk. induction results as [|r rest IH]; simpl in *; [discriminate|].
  destruct (Z.eqb_spec (key r) k) as [E|N]; simpl.
  - now rewrite Hk, Z.eqb_refl.
  - destruct (Z.eqb_spec (key r) k); [contradiction | auto].
Qed.

Lemma find_store_other (results : table) (k k' : Z) (s' : result_struct) :
  key s' = k -> k' <> k ->
  HASH_FIND_INT (store results k s') k' = HASH_FIND_INT results k'.
Proof.
  intros Hk N. induction results as [|r rest IH]; simpl; [reflexivity|].
  destruct (Z.eqb_spec (key r) k) as [E|N']; simpl.
  - destruct (Z.eqb_spec (key s') k'); [congruence|].
    destruct (Z.eqb_spec (key r) k'); [congruence | reflexivity].
  - now rewrite IH.
Qed.

Lemma store_store (results : table) (k : Z) (a b : result_struct) :
  key a = k -> store (store results k a) k b = store results k b.
Proof.
  intro Hk. induction results as [|r rest IH]; simpl; [reflexivity|].
  destruct (Z.eqb_spec (key r) k) as [E|N]; simpl.
  - now rewrite Hk, Z.eqb_refl.
  - destruct (Z.eqb_spec (key r) k); [contradiction | now rewrite IH].
Qed.

Lemma store_length (results : table) (k : Z) (s : result_struct) :
  List.length (store results k s) = List.length results.
Proof.
  induction results as [|r rest IH]; simpl; [reflexivity|].
  destruct (Z.eqb (key r) k); simpl; congruence.
Qed.

Lemma store_In (results : table) (k : Z) (s s' : result_struct) :
  HASH_FIND_INT results k = Some s -> In s' (store results k s').
Proof.
  induction results as [|r rest IH]; simpl; [discriminate|].
  destruct (Z.eqb (key r) k); [now left | right; auto].
Qed.

Lemma store_words (P : string -> Prop) (results : table) (k : Z)
    (s : result_struct) :
  Forall (fun r => P (word r)) results -> P (word s) ->
  Forall (fun r => P (word r)) (store results k s).
Proof.
  intros H Hs. induction H as [|r rest Hr Hrest IH]; simpl; [constructor|].
  destruct (Z.eqb (key r) k); constructor; auto.
Qed.

(** ** [add_result] *)

Section Upsert.

Variable fresh : nat -> string.

Lemma add_result_rejects k name line_number results :
  sizeof_word < strlen name ->
  add_result fresh k name line_number results = Some results.
Proof.
  intro H. unfold add_result.
  destruct (Nat.ltb_spec sizeof_word (strlen name)); [reflexivity | lia].
Qed.

Lemma add_result_overflows k name line_number results :
  strlen name = sizeof_word ->
  add_result fresh k name line_number results = None.
Proof.
  intro H. unfold add_result.
  destruct (Nat.ltb_spec sizeof_word (strlen name)); [lia|].
  rewrite strcpy_overflow by lia.
  now destruct (HASH_FIND_INT results k).
Qed.

Lemma add_result_accepts k name line_number results :
  strlen name < sizeof_word ->
  add_result fresh k name line_number results =
  Some (store
          match HASH_FIND_INT results k with
          | Some _ => results
          | None =>
              HASH_ADD_INT results
                (mk_result k "" (fresh (List.length results)))
          end k
          (mk_result k name
             (cat_line_number (summary_read fresh results k) line_number))).
Proof.
  intro H. unfold add_result, summary_read.
  destruct (Nat.ltb_spec sizeof_word (strlen name)); [lia|].
  rewrite strcpy_fits by assumption.
  destruct (HASH_FIND_INT results k) as [s|] eqn:E; simpl.
  - now rewrite (find_key _ _ _ E).
  - reflexivity.
Qed.

(** What an accepted call leaves in the table: the record under [k] holds
    the name and the summary after lines 81-96; every other key keeps its
    record. *)
Lemma add_result_lookup k name line_number results :
  strlen name < sizeof_word ->
  exists results',
    add_result fresh k name line_number results = Some results' /\
    HASH_FIND_INT results' k =
      Some (mk_result k name
              (cat_line_number (summary_read fresh results k) line_number)) /\
    forall k', k' <> k ->
      HASH_FIND_INT results' k' = HASH_FIND_INT results k'.
Proof.
  intro H. rewrite add_result_accepts by assumption.
  eexists; split; [reflexivity|].
  destruct (HASH_FIND_INT results k) as [s|] eqn:E.
  - split.
    + now apply find_store_same with s.
    + intros k' N. now apply find_store_other.
  - split.
    + apply find_store_same with (mk_result k "" (fresh (List.length results))).
      * unfold HASH_ADD_INT. rewrite find_app, E. simpl.
        now rewrite Z.eqb_refl.
      * reflexivity.
    + intros k' N. rewrite find_store_other by auto.
      unfold HASH_ADD_INT. rewrite find_app.
      destruct (HASH_FIND_INT results k'); [reflexivity|]. simpl.
      destruct (Z.eqb_spec k k'); [congruence | reflexivity].
Qed.

(** Every call is one of the three: rejected, undefined, accepted. *)
Lemma add_result_cases k name line_number results :
  (sizeof_word < strlen name /\
   add_result fresh k name line_number results = Some results) \/
  (strlen name = sizeof_word /\
   add_result fresh k name line_number results = None) \/
  (strlen name < sizeof_word /\
   exists results',
     add_result fresh k name line_number results = Some results' /\
     HASH_FIND_INT results' k =
       Some (mk_result k name
               (cat_line_number (summary_read fresh results k) line_number)) /\
     forall k', k' <> k ->
       HASH_FIND_INT results' k' = HASH_FIND_INT results k').
Proof.
  destruct (Nat.lt_trichotomy (strlen name) sizeof_word) as [H|[H|H]].
  - right; right. split; [assumption|]. now apply add_result_lookup.
  - right; left. split; [assumption|]. now apply add_result_overflows.
  - left. split; [assumption|]. now apply add_result_rejects.
Qed.

Lemma add_result_twice k name line_number results results' :
  add_result fresh k name line_number results = Some results' ->
  add_result fresh k name line_number results' = Some results'.
Proof.
  destruct (Nat.lt_trichotomy (strlen name) sizeof_word) as [H|[H|H]].
  - rewrite add_result_accepts by assumption. intro E.
    destruct (add_result_lookup k name line_number results H)
      as (r1 & E1 & F & _).
    rewrite add_result_accepts in E1 by assumption.
    assert (r1 = results') by congruence. subst r1. clear E1.
    rewrite add_result_accepts by assumption.
    unfold summary_read. rewrite F. simpl.
    rewrite cat_idempotent. injection E as <-.
    now rewrite store_store.
  - now rewrite add_result_overflows.
  - rewrite add_result_rejects by assumption. intros [= <-].
    now apply add_result_rejects.
Qed.

End Upsert.

(** ** Sequences of calls *)

Section Runs.

Variable m : machine.
Variable fresh : nat -> string.

Lemma upsert_defined token line_number results :
  strlen token <> LONGEST_WORD_LEN ->
  exists results', upsert fresh token line_number results = Some results'.
Proof.
  intro H. unfold upsert.
  destruct (add_result_cases fresh (hash token) token (sprintf_d line_number)
              results) as [[_ E]|[[E _]|(_ & r & E & _)]]; eauto.
  now elim H.
Qed.

Lemma run_defined ops results :
  (forall op, In op ops -> strlen (fst op) <> LONGEST_WORD_LEN) ->
  exists results', run_upserts fresh ops results = Some results'.
Proof.
  revert results; induction ops as [|[token n] ops IH]; intros results H.
  - now exists results.
  - simpl.
    destruct (upsert_defined token n results) as [r1 ->].
    { exact (H (token, n) (or_introl eq_refl)). }
    apply IH. intros op Hop. apply H. now right.
Qed.

Lemma run_app ops1 ops2 results :
  run_upserts fresh (ops1 ++ ops2) results =
  match run_upserts fresh ops1 results with
  | Some results' => run_upserts fresh ops2 results'
  | None => None
  end.
Proof.
  revert results; induction ops1 as [|[token n] ops1 IH]; intro results;
    simpl; [reflexivity|].
  destruct (upsert fresh token n results); [apply IH | reflexivity].
Qed.

Lemma add_tokens_run tokens line_number results :
  add_tokens fresh tokens line_number results =
  run_upserts fresh (map (fun token => (token, line_number)) tokens) results.
Proof.
  revert results; induction tokens as [|token tokens IH]; intro results;
    simpl; [reflexivity|].
  destruct (upsert fresh token line_number results); [apply IH | reflexivity].
Qed.

Lemma getline_defined_buffer lineptr :
  getline_defined m lineptr = true -> getline_defined m buffer = true.
Proof.
  unfold getline_defined. intro H. apply andb_prop in H as [-> _].
  reflexivity.
Qed.

Lemma fit_int_tail test_line lines line_number :
  fit_int (test_line :: lines) line_number ->
  (Z.of_nat line_number < INT_MAX)%Z /\
  (Z.of_nat (strlen test_line) <= INT_MAX)%Z /\
  fit_int lines (S line_number).
Proof.
  unfold fit_int. cbn [List.length]. intros [Hn Hl].
  inversion Hl as [|? ? Ht Hrest]; subst.
  repeat split; try assumption; lia.
Qed.

(** The loop of [main] is the run of its calls, when [getline] is defined
    at its first call and the lines fit [int]. *)
Lemma main_loop_run lines lineptr line_number results :
  getline_defined m lineptr = true ->
  fit_int lines line_number ->
  main_loop m fresh lines lineptr line_number results =
  run_upserts fresh (line_ops lines line_number) results.
Proof.
  revert lineptr line_number results;
    induction lines as [|test_line lines IH];
    intros lineptr line_number results Hg Hfit; cbn [main_loop].
  - destruct Hfit as [Hn _]. cbn [List.length] in Hn.
    destruct (Z.leb_spec INT_MAX (Z.of_nat line_number)); [lia|].
    now rewrite Hg.
  - apply fit_int_tail in Hfit as (Hn & Hl & Hfit).
    destruct (Z.leb_spec INT_MAX (Z.of_nat line_number)); [lia|].
    rewrite Hg. cbn [negb].
    destruct (Z.ltb_spec INT_MAX (Z.of_nat (strlen test_line))); [lia|].
    cbn [line_ops]. rewrite run_app, add_tokens_run.
    destruct (run_upserts fresh _ results); [|reflexivity].
    apply IH; [now apply getline_defined_buffer with lineptr | exact Hfit].
Qed.

(** A run of the loop that reaches its end had a defined [getline] and
    lines that fit. *)
Lemma main_loop_defined lines lineptr line_number results results' :
  main_loop m fresh lines lineptr line_number results = Some results' ->
  getline_defined m lineptr = true /\
  fit_int lines line_number /\
  run_upserts fresh (line_ops lines line_number) results = Some results'.
Proof.
  revert lineptr line_number results;
    induction lines as [|test_line lines IH];
    intros lineptr line_number results E; cbn [main_loop] in E.
  - destruct (Z.leb_spec INT_MAX (Z.of_nat line_number)); [discriminate|].
    destruct (getline_defined m lineptr); [|discriminate].
    split; [reflexivity|]. split; [|exact E].
    split; [cbn [List.length]; lia | constructor].
  - destruct (Z.leb_spec INT_MAX (Z.of_nat line_number)); [discriminate|].
    destruct (getline_defined m lineptr); [|discriminate]. cbn [negb] in E.
    destruct (Z.ltb_spec INT_MAX (Z.of_nat (strlen test_line)));
      [discriminate|].
    rewrite add_tokens_run in E. cbn [line_ops]. rewrite run_app.
    destruct (run_upserts fresh _ results) as [t|]; [|discriminate].
    destruct (IH _ _ _ E) as (_ & [Hn Hl] & Er).
    split; [reflexivity|]. split; [|exact Er].
    split; [cbn [List.length]; lia | now constructor].
Qed.

Lemma main_loop_calls lines lineptr line_number results results' :
  main_loop m fresh lines lineptr line_number results = Some results' ->
  run_upserts fresh (line_ops lines line_number) results = Some results'.
Proof. intro E. now apply main_loop_defined in E. Qed.

(** A property of tables that every defined call preserves holds at the
    end of every defined run. *)
Lemma run_invariant (P : table -> Prop) :
  (forall token line_number results results',
      P results -> upsert fresh token line_number results = Some results' ->
      P results') ->
  forall ops results results',
    P results -> run_upserts fresh ops results = Some results' -> P results'.
Proof.
  intros step ops; induction ops as [|[token n] ops IH];
    intros results results' HP E; simpl in E.
  - now injection E as <-.
  - destruct (upsert fresh token n results) as [r1|] eqn:E1; [|discriminate].
    eapply IH; [|exact E]. eapply step; eauto.
Qed.

(** The record under [k] after a defined call. *)
Lemma upsert_lookup token line_number results results' k :
  upsert fresh token line_number results = Some results' ->
  HASH_FIND_INT results' k =
  if Z.eqb (hash token) k && Nat.ltb (strlen token) sizeof_word
  then Some (mk_result k token
               (cat_line_number (summary_read fresh results k)
                  (sprintf_d line_number)))
  else HASH_FIND_INT results k.
Proof.
  unfold upsert. intro E.
  destruct (add_result_cases fresh (hash token) token (sprintf_d line_number)
              results) as [[H E']|[[H E']|(H & r & E' & F & O)]].
  - assert (results' = results) by congruence. subst.
    destruct (Nat.ltb_spec (strlen token) sizeof_word); [lia|].
    now rewrite andb_false_r.
  - congruence.
  - assert (r = results') by congruence. subst r.
    destruct (Nat.ltb_spec (strlen token) sizeof_word); [|lia].
    rewrite andb_true_r.
    destruct (Z.eqb_spec (hash token) k) as [<-|N]; [exact F|].
    apply O. congruence.
Qed.

Lemma words_invariant (Q : string -> Prop) ops results results' :
  Q "" ->
  (forall op, In op ops -> strlen (fst op) < sizeof_word -> Q (fst op)) ->
  Forall (fun s => Q (word s)) results ->
  run_upserts fresh ops results = Some results' ->
  Forall (fun s => Q (word s)) results'.
Proof.
  intro Q0. revert results; induction ops as [|[token n] ops IH];
    intros results Hops HP E; simpl in E.
  - now injection E as <-.
  - destruct (upsert fresh token n results) as [r1|] eqn:E1; [|discriminate].
    apply (IH r1); [intros op Hop; apply Hops; now right| |exact E].
    unfold upsert in E1.
    destruct (Nat.lt_trichotomy (strlen token) sizeof_word) as [H|[H|H]].
    + rewrite add_result_accepts in E1 by assumption. injection E1 as <-.
      apply (store_words Q);
        [|exact (Hops (token, n) (or_introl eq_refl) H)].
      destruct (HASH_FIND_INT results (hash token)); [assumption|].
      unfold HASH_ADD_INT. apply Forall_app. split; [assumption|].
      now repeat constructor.
    + now rewrite add_result_overflows in E1.
    + rewrite add_result_rejects in E1 by assumption. now injection E1 as <-.
Qed.


Lemma last_stored_current k ops current :
  last_stored k ops current =
  match last_stored k ops None with
  | Some token => Some token
  | None => current
  end.
Proof.
  revert current; induction ops as [|[token n] ops IH]; intro current;
    simpl; [reflexivity|].
  rewrite (IH (if Z.eqb (hash token) k && Nat.ltb (strlen token) sizeof_word
               then Some token else current)).
  rewrite (IH (if Z.eqb (hash token) k && Nat.ltb (strlen token) sizeof_word
               then Some token else None)).
  destruct (last_stored k ops None); [reflexivity|].
  now destruct (Z.eqb (hash token) k && Nat.ltb (strlen token) sizeof_word).
Qed.

Lemma last_stored_word k ops results results' :
  run_upserts fresh ops results = Some results' ->
  option_map word (HASH_FIND_INT results' k) =
  match last_stored k ops None with
  | Some token => Some token
  | None => option_map word (HASH_FIND_INT results k)
  end.
Proof.
  revert results; induction ops as [|[token n] ops IH]; intros results E;
    simpl in E.
  - now injection E as <-.
  - destruct (upsert fresh token n results) as [r1|] eqn:E1; [|discriminate].
    rewrite (IH _ E). simpl.
    rewrite (last_stored_current k ops
               (if Z.eqb (hash token) k && Nat.ltb (strlen token) sizeof_word
                then Some token else None)).
    destruct (last_stored k ops None); [reflexivity|].
    rewrite (upsert_lookup _ _ _ _ k E1).
    now destruct (Z.eqb (hash token) k && Nat.ltb (strlen token) sizeof_word).
Qed.

End Runs.

(** ** [strcmp] and the sort *)

Lemma strcmp_opp (a b : string) : strcmp b a = (- strcmp a b)%Z.
Proof.
  revert b; induction a as [|c a IH]; intros [|d b]; simpl; try lia.
  rewrite Ascii.eqb_sym. destruct (Ascii.eqb c d); [apply IH | lia].
Qed.

Lemma uchar_inj (c d : ascii) : uchar c = uchar d -> c = d.
Proof.
  unfold uchar; intro H.
  rewrite <- (ascii_N_embedding c), <- (ascii_N_embedding d). now rewrite H.
Qed.

(** On strings without a NUL byte, which is what a C string is, the sign
    of [strcmp] is the byte-wise order. *)
Lemma strcmp_bytewise (a b : string) :
  all_chars (fun c => negb (Ascii.eqb c NUL)) a = true ->
  (strcmp a b <= 0)%Z -> bytewise_le a b.
Proof.
  revert b; induction a as [|c a IH]; intros b Hn Hc; [constructor|].
  simpl in Hn. apply andb_prop in Hn as [Hc0 Ha].
  destruct b as [|d b]; simpl in Hc.
  - assert (uchar c = 0%N) as Z0 by lia.
    assert (c = NUL) as -> by (apply uchar_inj; exact Z0).
    discriminate.
  - destruct (Ascii.eqb_spec c d) as [->|N].
    + apply bytewise_eq. now apply IH.
    + apply bytewise_lt.
      assert (uchar c <> uchar d) by (intro E; now apply N, uchar_inj).
      lia.
Qed.

Lemma bytewise_strcmp (a b : string) :
  bytewise_le a b -> (strcmp a b <= 0)%Z.
Proof.
  induction 1 as [b|c d a b H|c a b H IH]; simpl.
  - destruct b; lia.
  - destruct (Ascii.eqb_spec c d) as [->|N]; lia.
  - now rewrite Ascii.eqb_refl.
Qed.

Section Sorting.

Variable cmp : result_struct -> result_struct -> Z.
Hypothesis cmp_total : forall a b, (0 < cmp a b)%Z -> (cmp b a <= 0)%Z.

Lemma sort_insert_permutation s sorted :
  Permutation (sort_insert cmp s sorted) (s :: sorted).
Proof.
  induction sorted as [|r rest IH]; simpl; [apply Permutation_refl|].
  destruct (Z.leb (cmp s r) 0); [apply Permutation_refl|].
  eapply perm_trans; [apply perm_skip, IH | apply perm_swap].
Qed.

Lemma HASH_SORT_permutation results :
  Permutation (HASH_SORT results cmp) results.
Proof.
  induction results as [|s rest IH]; simpl; [constructor|].
  eapply perm_trans; [apply sort_insert_permutation | now apply perm_skip].
Qed.

Lemma sort_insert_head s r sorted :
  (ordered_by cmp) r s -> HdRel (ordered_by cmp) r sorted ->
  HdRel (ordered_by cmp) r (sort_insert cmp s sorted).
Proof.
  intros Hrs Hd. destruct sorted as [|x rest]; simpl; [now constructor|].
  destruct (Z.leb (cmp s x) 0); constructor; [assumption|].
  now inversion Hd.
Qed.

Lemma sort_insert_sorted s sorted :
  Sorted (ordered_by cmp) sorted -> Sorted (ordered_by cmp) (sort_insert cmp s sorted).
Proof.
  induction 1 as [|r rest Hs IH Hd]; simpl.
  - repeat constructor.
  - destruct (Z.leb_spec (cmp s r) 0) as [Hle|Hgt].
    + constructor; [now constructor | now constructor].
    + constructor; [exact IH|].
      apply sort_insert_head; [|exact Hd]. now apply cmp_total.
Qed.

Lemma HASH_SORT_sorted results : Sorted (ordered_by cmp) (HASH_SORT results cmp).
Proof.
  induction results as [|s rest IH]; simpl; [constructor|].
  now apply sort_insert_sorted.
Qed.

Lemma sorted_adjacent l i a b :
  Sorted (ordered_by cmp) l ->
  nth_error l i = Some a -> nth_error l (S i) = Some b -> (cmp a b <= 0)%Z.
Proof.
  intro Hs; revert i; induction Hs as [|r rest Hs IH Hd]; intros i Ha Hb.
  - destruct i; discriminate.
  - destruct i as [|i]; simpl in Ha, Hb.
    + injection Ha as ->. destruct rest as [|x rest]; [discriminate|].
      simpl in Hb. injection Hb as ->. now inversion Hd.
    + eapply IH; eassumption.
Qed.

End Sorting.

Lemma name_sort_total (a b : result_struct) :
  (0 < name_sort a b)%Z -> (name_sort b a <= 0)%Z.
Proof.
  unfold name_sort. rewrite (strcmp_opp (word a) (word b)). lia.
Qed.

Lemma sort_by_name_adjacent results i a b :
  nth_error (sort_by_name results) i = Some a ->
  nth_error (sort_by_name results) (S i) = Some b ->
  (strcmp (word a) (word b) <= 0)%Z.
Proof.
  apply (sorted_adjacent name_sort).
  apply HASH_SORT_sorted, name_sort_total.
Qed.

Lemma sort_by_name_In results s :
  In s (sort_by_name results) <-> In s results.
Proof.
  split; apply Permutation_in;
    [|apply Permutation_sym]; apply HASH_SORT_permutation.
Qed.

(** ** The scan of a line *)

Lemma scan_char_alpha (c : ascii) :
  isalpha c = true -> scan_char c = tolower c.
Proof. unfold scan_char. now intros ->. Qed.

Lemma scan_char_apostrophe : scan_char apostrophe = apostrophe.
Proof. reflexivity. Qed.

Lemma scan_char_other (c : ascii) :
  isalpha c = false -> c <> apostrophe -> scan_char c = " "%char.
Proof.
  unfold scan_char. intros -> N.
  apply Ascii.eqb_neq in N. now rewrite N.
Qed.

Lemma scan_char_word (c : ascii) :
  word_char c = true -> scan_char c = tolower c.
Proof.
  unfold word_char. intro H. apply orb_prop in H as [H|H].
  - now apply scan_char_alpha.
  - apply Ascii.eqb_eq in H. now subst c.
Qed.

Lemma scan_char_not_word (c : ascii) :
  word_char c = false -> scan_char c = delimitor.
Proof.
  unfold word_char. intro H. apply orb_false_elim in H as [Ha Hq].
  apply scan_char_other; [assumption | now apply Ascii.eqb_neq].
Qed.

(** The bytes the scan writes: lower-case letters, apostrophes and
    spaces. *)
Lemma scan_char_range (c : ascii) :
  islower (scan_char c) = true \/ scan_char c = apostrophe \/
  scan_char c = delimitor.
Proof.
  each_byte c.
Qed.

Lemma tolower_lower (c : ascii) :
  isalpha c = true -> islower (tolower c) = true.
Proof.
  each_byte c.
Qed.

Lemma tolower_word_not_delimitor (c : ascii) :
  word_char c = true -> Ascii.eqb (tolower c) delimitor = false.
Proof.
  each_byte c.
Qed.

Lemma scan_char_not_NUL (c : ascii) : Ascii.eqb (scan_char c) NUL = false.
Proof.
  each_byte c.
Qed.

Lemma strlen_scan_line (test_line : string) :
  strlen (scan_line test_line) = strlen test_line.
Proof.
  unfold strlen. induction test_line as [|c p IH]; simpl; [reflexivity|].
  destruct (Ascii.eqb c NUL); simpl; congruence.
Qed.

Lemma cstr_scan_line (test_line : string) :
  cstr (scan_line test_line) = map_chars scan_char (cstr test_line).
Proof.
  induction test_line as [|c p IH]; simpl; [reflexivity|].
  destruct (Ascii.eqb c NUL) eqn:E; simpl.
  - now rewrite E.
  - now rewrite scan_char_not_NUL, IH.
Qed.

Lemma scan_line_before_NUL (test_line : string) (i : nat) (c : ascii) :
  i < strlen (cstr test_line) ->
  String.get i test_line = Some c ->
  String.get i (scan_line test_line) = Some (scan_char c).
Proof.
  revert i; induction test_line as [|d p IH]; intros i Hi Hg; simpl in *.
  - discriminate.
  - destruct (Ascii.eqb d NUL); simpl in *; [lia|].
    destruct i as [|i]; [congruence|].
    apply IH; [lia | assumption].
Qed.

Lemma scan_line_from_NUL (test_line : string) (i : nat) :
  strlen (cstr test_line) <= i ->
  String.get i (scan_line test_line) = String.get i test_line.
Proof.
  revert i; induction test_line as [|d p IH]; intros i Hi; simpl in *.
  - reflexivity.
  - destruct (Ascii.eqb d NUL); simpl in *; [reflexivity|].
    destruct i as [|i]; [lia|]. apply IH. lia.
Qed.

(** ** The tokens of a line *)

Lemma last_char_cons (c : ascii) (s : string) :
  s <> "" -> last_char (String c s) = last_char s.
Proof. destruct s; [now intro H; elim H | reflexivity]. Qed.

Lemma last_char_append (a b : string) :
  b <> "" -> last_char (a ++ b) = last_char b.
Proof.
  intro H. induction a as [|c a IH]; [reflexivity|].
  simpl append. rewrite last_char_cons; [exact IH|].
  destruct a; [exact H | discriminate].
Qed.

Lemma last_char_map (f : ascii -> ascii) (s : string) :
  last_char (map_chars f s) = option_map f (last_char s).
Proof.
  induction s as [|c s IH]; [reflexivity|].
  destruct s as [|d s]; [reflexivity|]. exact IH.
Qed.

Lemma map_chars_append (f : ascii -> ascii) (a b : string) :
  map_chars f (a ++ b) = (map_chars f a ++ map_chars f b)%string.
Proof.
  induction a as [|c a IH]; simpl; [reflexivity | now rewrite IH].
Qed.

Lemma map_chars_split (f : ascii -> ascii) (s a b : string) :
  map_chars f s = (a ++ b)%string ->
  exists sa sb, s = (sa ++ sb)%string /\
                map_chars f sa = a /\ map_chars f sb = b.
Proof.
  revert s; induction a as [|c a IH]; intros s H.
  - now exists "", s.
  - destruct s as [|d s]; [discriminate|]. simpl in H.
    injection H as Hc Hs. destruct (IH s Hs) as (sa & sb & -> & Ha & Hb).
    exists (String d sa), sb. simpl. now rewrite Hc, Ha, Hb.
Qed.

Lemma strlen_map_chars (f : ascii -> ascii) (s : string) :
  strlen (map_chars f s) = strlen s.
Proof.
  unfold strlen; induction s as [|c s IH]; simpl; congruence.
Qed.

Lemma strtok_loop_delimitor (fuel : nat) (rest : string) :
  strtok_loop (S fuel) (String delimitor rest) = strtok_loop (S fuel) rest.
Proof. reflexivity. Qed.

Lemma strtok_loop_token (fuel : nat) (c : ascii) (rest : string) :
  Ascii.eqb c delimitor = false ->
  strtok_loop (S fuel) (String c rest) =
  fst (token_end (String c rest))
    :: strtok_loop fuel (snd (token_end (String c rest))).
Proof.
  intro H.
  assert (strtok_r (String c rest) = Some (token_end (String c rest))) as E.
  { unfold strtok_r. cbn [skip_delimiters]. now rewrite H. }
  cbn [strtok_loop]. rewrite E.
  now destruct (token_end (String c rest)).
Qed.

Lemma strtok_loop_empty (fuel : nat) : strtok_loop fuel "" = [].
Proof. now destruct fuel. Qed.

Lemma strtok_loop_more (fuel : nat) (s token : string) :
  In token (strtok_loop fuel s) -> In token (strtok_loop (S fuel) s).
Proof.
  revert s; induction fuel as [|fuel IH]; intros s H; [contradiction|].
  simpl in H |- *. destruct (strtok_r s) as [[t saveptr]|]; [|contradiction].
  destruct H as [H|H]; [now left | right; now apply IH].
Qed.

Lemma token_end_token (token after : string) :
  free_of_delimitor token = true -> delimited (first_char after) ->
  token_end (token ++ after) =
  (token, match after with "" => "" | String _ rest => rest end).
Proof.
  unfold free_of_delimitor. intros Hf Hd.
  induction token as [|c token IH]; simpl in *.
  - destruct after as [|d rest]; [reflexivity|].
    simpl in Hd. subst d. reflexivity.
  - apply andb_prop in Hf as [Hc Hf]. apply negb_true_iff in Hc.
    now rewrite Hc, IH.
Qed.

Lemma token_end_before (before rest : string) :
  before <> "" -> delimited (last_char before) ->
  exists token before',
    token_end (before ++ rest) = (token, (before' ++ rest)%string) /\
    delimited (last_char before') /\ strlen before' < strlen before.
Proof.
  induction before as [|c x IH]; intros Hne Hd; [now elim Hne|].
  simpl append. simpl token_end.
  destruct (Ascii.eqb_spec c delimitor) as [->|N].
  - exists "", x. split; [reflexivity|]. split; [|unfold strlen; simpl; lia].
    destruct x; [exact I | exact Hd].
  - destruct x as [|d x]; [now elim N|].
    destruct IH as (token & x' & E & Hd' & Hl); [discriminate | exact Hd|].
    rewrite E. exists (String c token), x'.
    split; [reflexivity|]. split; [exact Hd'|].
    unfold strlen in *; simpl in *; lia.
Qed.

(** Every stretch between delimiters is visited by the loop. *)
Lemma strtok_loop_complete (token after : string) :
  token <> "" -> free_of_delimitor token = true ->
  delimited (first_char after) ->
  forall fuel before,
    delimited (last_char before) ->
    strlen (before ++ token ++ after) < fuel ->
    In token (strtok_loop fuel (before ++ token ++ after)).
Proof.
  intros Hne Hf Ha. induction fuel as [|fuel IH]; intros before Hb Hl; [lia|].
  destruct before as [|c x].
  - destruct token as [|c token]; [now elim Hne|].
    change ("" ++ String c token ++ after)%string
      with (String c (token ++ after)).
    rewrite strtok_loop_token.
    + left. change (String c (token ++ after))
        with (String c token ++ after)%string.
      now rewrite token_end_token.
    + unfold free_of_delimitor in Hf. simpl in Hf.
      apply andb_prop in Hf as [Hc _]. now apply negb_true_iff in Hc.
  - destruct (Ascii.eqb_spec c delimitor) as [->|N].
    + simpl append. rewrite strtok_loop_delimitor.
      apply strtok_loop_more, IH.
      * destruct x; [exact I | exact Hb].
      * unfold strlen in *; simpl in Hl; lia.
    + simpl append. rewrite strtok_loop_token by now apply Ascii.eqb_neq.
      right.
      destruct (token_end_before (String c x) (token ++ after))
        as (t & x' & E & Hd & Hlen); [discriminate | exact Hb|].
      simpl append in E. rewrite E. simpl snd. apply IH; [exact Hd|].
      rewrite !strlen_append in *. simpl in Hl. unfold strlen in *.
      simpl in *. lia.
Qed.

Lemma skip_delimiters_idempotent (s : string) :
  skip_delimiters (skip_delimiters s) = skip_delimiters s.
Proof.
  induction s as [|c s IH]; [reflexivity|]. simpl.
  destruct (Ascii.eqb c delimitor) eqn:E; [exact IH|]. simpl. now rewrite E.
Qed.

Lemma skip_delimiters_head (s : string) (c : ascii) (rest : string) :
  skip_delimiters s = String c rest -> Ascii.eqb c delimitor = false.
Proof.
  induction s as [|d s IH]; simpl; [discriminate|].
  destruct (Ascii.eqb d delimitor) eqn:E; [exact IH|]. congruence.
Qed.

Lemma skip_delimiters_split (s : string) :
  exists before,
    s = (before ++ skip_delimiters s)%string /\ delimited (last_char before).
Proof.
  induction s as [|c s (before & E & Hd)]; [now exists ""|]. simpl.
  destruct (Ascii.eqb_spec c delimitor) as [->|N].
  - exists (String delimitor before). split; [simpl; now rewrite <- E|].
    destruct before; [reflexivity | exact Hd].
  - now exists "".
Qed.

Lemma strtok_loop_skip (fuel : nat) (s : string) :
  strtok_loop fuel s = strtok_loop fuel (skip_delimiters s).
Proof.
  destruct fuel; [reflexivity|]. simpl. unfold strtok_r.
  now rewrite skip_delimiters_idempotent.
Qed.

Lemma token_end_split (s : string) :
  exists rest,
    s = (fst (token_end s) ++ rest)%string /\
    free_of_delimitor (fst (token_end s)) = true /\
    ((rest = "" /\ snd (token_end s) = "") \/
     rest = String delimitor (snd (token_end s))).
Proof.
  induction s as [|c s (rest & E & Hf & Hr)]; simpl.
  - exists "". auto.
  - destruct (Ascii.eqb_spec c delimitor) as [->|N]; simpl.
    + exists (String delimitor s). auto.
    + destruct (token_end s) as [token saveptr]. simpl in *.
      exists rest. split; [now rewrite <- E|]. split; [|exact Hr].
      unfold free_of_delimitor in *. simpl.
      apply Ascii.eqb_neq in N. now rewrite N, Hf.
Qed.

(** Every token the loop visits is a stretch between delimiters. *)
Lemma strtok_loop_sound (fuel : nat) (s token : string) :
  In token (strtok_loop fuel s) -> token_of s token.
Proof.
  revert s; induction fuel as [|fuel IH]; intros s H; [contradiction|].
  rewrite strtok_loop_skip in H.
  destruct (skip_delimiters_split s) as (d & Es & Hd).
  destruct (skip_delimiters s) as [|c r] eqn:Ek; [contradiction|].
  pose proof (skip_delimiters_head _ _ _ Ek) as Hc.
  rewrite strtok_loop_token in H by exact Hc.
  destruct (token_end_split (String c r)) as (rest & Er & Hf & Hr).
  destruct (token_end (String c r)) as [t saveptr] eqn:Et. simpl in *.
  destruct H as [<-|H].
  - exists d, rest. split; [now rewrite Es, Er|].
    split; [|split; [exact Hf|split; [exact Hd|]]].
    + intro Ht. subst t. cbn [token_end] in Et. rewrite Hc in Et.
      destruct (token_end r); discriminate.
    + destruct Hr as [[-> _]| ->]; reflexivity.
  - destruct (IH _ H) as (x & y & Ex & Hne & Hft & Hx & Hy).
    destruct Hr as [[_ ->]| ->].
    + destruct x; [destruct token; [now elim Hne|]|]; discriminate.
    + exists (d ++ t ++ String delimitor x)%string, y.
      split; [|split; [exact Hne|split; [exact Hft|split; [|exact Hy]]]].
      * rewrite Es, Er, Ex. now rewrite !append_assoc.
      * rewrite <- append_assoc, last_char_append by discriminate.
        destruct x; [reflexivity | exact Hx].
Qed.

(** The tokens of the scanned line and the maximal runs of the line. *)
Lemma all_chars_map_scan (run : string) :
  all_chars word_char run = true -> map_chars scan_char run = lowercase run.
Proof.
  unfold lowercase. induction run as [|c run IH]; simpl; [reflexivity|].
  intro H. apply andb_prop in H as [Hc Hr].
  now rewrite scan_char_word, IH.
Qed.

Lemma lowercase_free (run : string) :
  all_chars word_char run = true -> free_of_delimitor (lowercase run) = true.
Proof.
  unfold lowercase, free_of_delimitor.
  induction run as [|c run IH]; simpl; [reflexivity|].
  intro H. apply andb_prop in H as [Hc Hr].
  now rewrite tolower_word_not_delimitor, IH.
Qed.

Lemma scan_char_delimitor (c : ascii) :
  scan_char c = delimitor <-> word_char c = false.
Proof.
  split; [|apply scan_char_not_word].
  intro H. destruct (word_char c) eqn:E; [|reflexivity].
  pose proof (tolower_word_not_delimitor c E) as N.
  rewrite <- scan_char_word, H in N by exact E. discriminate.
Qed.

Lemma free_map_scan (s : string) :
  free_of_delimitor (map_chars scan_char s) = true ->
  all_chars word_char s = true.
Proof.
  unfold free_of_delimitor. induction s as [|c s IH]; simpl; [reflexivity|].
  intro H. apply andb_prop in H as [Hc Hs]. rewrite IH by exact Hs.
  destruct (word_char c) eqn:E; [reflexivity|].
  apply scan_char_delimitor in E. rewrite E in Hc. discriminate.
Qed.

Lemma delimited_map_scan (c : option ascii) :
  delimited (option_map scan_char c) <-> no_word_char c.
Proof.
  destruct c as [c|]; simpl; [apply scan_char_delimitor | tauto].
Qed.

Lemma first_char_map (f : ascii -> ascii) (s : string) :
  first_char (map_chars f s) = option_map f (first_char s).
Proof. now destruct s. Qed.

Lemma maximal_run_token (line run : string) :
  maximal_run line run ->
  token_of (map_chars scan_char line) (lowercase run).
Proof.
  intros (before & after & -> & Hne & Hw & Hb & Ha).
  exists (map_chars scan_char before), (map_chars scan_char after).
  rewrite !map_chars_append, (all_chars_map_scan run Hw).
  split; [reflexivity|]. split; [|split; [now apply lowercase_free|split]].
  - destruct run; [now elim Hne | discriminate].
  - rewrite last_char_map. now apply delimited_map_scan.
  - rewrite first_char_map. now apply delimited_map_scan.
Qed.

Lemma token_maximal_run (line token : string) :
  token_of (map_chars scan_char line) token ->
  exists run, maximal_run line run /\ token = lowercase run.
Proof.
  intros (x & y & E & Hne & Hf & Hx & Hy).
  apply map_chars_split in E as (before & rest & -> & <- & E).
  apply map_chars_split in E as (run & after & -> & <- & <-).
  pose proof (free_map_scan run Hf) as Hw.
  exists run. split; [|now apply all_chars_map_scan].
  exists before, after. split; [reflexivity|].
  split; [|split; [exact Hw|split]].
  - destruct run; [now elim Hne | discriminate].
  - rewrite last_char_map in Hx. now apply delimited_map_scan.
  - rewrite first_char_map in Hy. now apply delimited_map_scan.
Qed.

(** The tokens [main] takes from a line are the lower-cased maximal runs
    of the part of the line before its terminator. *)
Lemma line_tokens_runs (test_line token : string) :
  In token (line_tokens test_line) <->
  exists run, maximal_run (cstr test_line) run /\ token = lowercase run.
Proof.
  unfold line_tokens. rewrite cstr_scan_line. split.
  - intro H. apply strtok_loop_sound in H. now apply token_maximal_run.
  - intros (run & Hr & ->).
    destruct (maximal_run_token _ _ Hr) as (x & y & E & Hne & Hf & Hx & Hy).
    rewrite E. apply strtok_loop_complete; auto.
Qed.

Lemma line_ops_In (lines : list string) (n : nat) (token : string) (m : nat) :
  In (token, m) (line_ops lines n) <->
  exists i test_line,
    nth_error lines i = Some test_line /\ m = n + S i /\
    In token (line_tokens test_line).
Proof.
  revert n; induction lines as [|l lines IH]; intro n; simpl.
  - split; [contradiction|]. intros (i & t & H & _). destruct i; discriminate.
  - rewrite in_app_iff, in_map_iff, IH. split.
    + intros [(t & E & Ht)|(i & tl & Hn & -> & Ht)].
      * injection E as -> <-. exists 0, l. repeat split; [lia | assumption].
      * exists (S i), tl. repeat split; [assumption | lia | assumption].
    + intros (i & tl & Hn & -> & Ht). destruct i as [|i]; simpl in Hn.
      * injection Hn as ->. left. exists token. split; [f_equal; lia | assumption].
      * right. exists i, tl. repeat split; [assumption | lia | assumption].
Qed.

(** ** Lower case *)

Lemma strlen_lowercase (s : string) : strlen (lowercase s) = strlen s.
Proof. apply strlen_map_chars. Qed.

Lemma lowercase_no_NUL (run : string) :
  all_chars word_char run = true ->
  all_chars (fun c => negb (Ascii.eqb c NUL)) (lowercase run) = true.
Proof.
  unfold lowercase. induction run as [|c run IH]; simpl; [reflexivity|].
  intro H. apply andb_prop in H as [Hc Hr]. rewrite IH by exact Hr.
  rewrite <- scan_char_word by exact Hc. now rewrite scan_char_not_NUL.
Qed.

Lemma line_tokens_no_NUL (test_line token : string) :
  In token (line_tokens test_line) ->
  all_chars (fun c => negb (Ascii.eqb c NUL)) token = true.
Proof.
  intro H. apply line_tokens_runs in H as (run & (b & a & _ & _ & Hw & _) & ->).
  now apply lowercase_no_NUL.
Qed.

(** ** The allocator matters only through the blocks it returns *)

Lemma add_result_ext (f g : nat -> string) k name line_number results :
  (forall n, f n = g n) ->
  add_result f k name line_number results
  = add_result g k name line_number results.
Proof.
  intro H. unfold add_result. now rewrite (H (List.length results)).
Qed.

Lemma run_upserts_ext (f g : nat -> string) ops results :
  (forall n, f n = g n) ->
  run_upserts f ops results = run_upserts g ops results.
Proof.
  intro H. revert results.
  induction ops as [|[token n] ops IH]; intro results; simpl; [reflexivity|].
  unfold upsert. rewrite (add_result_ext f g) by exact H.
  destruct (add_result g _ _ _ results); [apply IH | reflexivity].
Qed.

Lemma main_loop_ext (m : machine) (f g : nat -> string) lines lineptr n
    results :
  (forall n, f n = g n) ->
  main_loop m f lines lineptr n results
  = main_loop m g lines lineptr n results.
Proof.
  intro H. revert lineptr n results.
  induction lines as [|test_line lines IH]; intros lineptr n results;
    cbn [main_loop]; [reflexivity|].
  destruct (INT_MAX <=? Z.of_nat n)%Z; [reflexivity|].
  destruct (negb (getline_defined m lineptr)); [reflexivity|].
  destruct (INT_MAX <? Z.of_nat (strlen test_line))%Z; [reflexivity|].
  rewrite !add_tokens_run, (run_upserts_ext f g) by exact H.
  destruct (run_upserts g _ results); [apply IH | reflexivity].
Qed.

Lemma main_ext (m : machine) (f g : nat -> string) stdin :
  (forall n, f n = g n) -> main m f stdin = main m g stdin.
Proof.
  intro H. unfold main. now rewrite (main_loop_ext m f g) by exact H.
Qed.


Lemma summary_limit_positive : 0 < summary_limit.
Proof. apply Nat.ltb_lt. vm_compute. reflexivity. Qed.

Lemma cat_line_number_fresh (n : nat) :
  cat_line_number "" (sprintf_d n) = sprintf_d n.
Proof.
  rewrite cat_line_number_unfold.
  destruct (Nat.ltb_spec (strlen "") summary_limit) as [_|H].
  - reflexivity.
  - pose proof summary_limit_positive. simpl in H. lia.
Qed.

Lemma store_new (results : table) (k : Z) (fresh_record s : result_struct) :
  HASH_FIND_INT results k = None -> key fresh_record = k ->
  store (HASH_ADD_INT results fresh_record) k s = results ++ [s].
Proof.
  intros H Hk. unfold HASH_ADD_INT.
  induction results as [|r rest IH]; simpl in *.
  - now rewrite Hk, Z.eqb_refl.
  - destruct (Z.eqb (key r) k); [discriminate|]. now rewrite IH.
Qed.

Lemma islower_not_upper (c : ascii) : islower c = true -> isupper c = false.
Proof.
  unfold islower, isupper. intro H. apply andb_prop in H as [H _].
  apply N.leb_le in H. apply andb_false_iff. right. apply N.leb_gt. lia.
Qed.


(** ** Decimal numerals and the markers of successive lines *)

Lemma sprintf_d_decimal n : sprintf_d n = String delimitor (decimal n).
Proof. reflexivity. Qed.

Lemma string_of_uint_digits (d : uint) :
  all_chars isdigit (NilEmpty.string_of_uint d) = true.
Proof. induction d; simpl; auto. Qed.

Lemma to_uint_not_Nil (n : nat) : Nat.to_uint n <> Nil.
Proof.
  intro H. pose proof (Unsigned.of_to n) as E. rewrite H in E.
  simpl in E. subst n. discriminate.
Qed.

Lemma decimal_NilEmpty (n : nat) :
  decimal n = NilEmpty.string_of_uint (Nat.to_uint n).
Proof.
  unfold decimal, NilZero.string_of_uint.
  pose proof (to_uint_not_Nil n). now destruct (Nat.to_uint n).
Qed.

Lemma decimal_digits (n : nat) : all_chars isdigit (decimal n) = true.
Proof. rewrite decimal_NilEmpty. apply string_of_uint_digits. Qed.

Lemma decimal_not_empty (n : nat) : decimal n <> "".
Proof.
  rewrite decimal_NilEmpty. pose proof (to_uint_not_Nil n).
  now destruct (Nat.to_uint n).
Qed.

Lemma of_uint_acc_grows (d : uint) (acc : nat) : acc <= Nat.of_uint_acc d acc.
Proof.
  revert acc; induction d; intro acc; simpl; [lia|..];
    (eapply Nat.le_trans; [|apply IHd]); rewrite Nat.tail_mul_spec; lia.
Qed.

Lemma starts_with_of_uint (d2 : uint) :
  forall d1 acc1 acc2,
    starts_with (NilEmpty.string_of_uint d2) (NilEmpty.string_of_uint d1) = true ->
    acc2 <= acc1 ->
    Nat.of_uint_acc d2 acc2 <= Nat.of_uint_acc d1 acc1.
Proof.
  induction d2; intros d1 acc1 acc2 Hs Hacc; simpl;
    [eapply Nat.le_trans; [exact Hacc | apply of_uint_acc_grows]|..];
    (destruct d1; simpl in Hs; try discriminate; simpl; apply IHd2;
     [exact Hs | rewrite !Nat.tail_mul_spec; lia]).
Qed.

Lemma decimal_starts_with (m k : nat) :
  starts_with (decimal m) (decimal k) = true -> m <= k.
Proof.
  rewrite !decimal_NilEmpty. intro H.
  rewrite <- (Unsigned.of_to m), <- (Unsigned.of_to k). unfold Nat.of_uint.
  now apply starts_with_of_uint.
Qed.

Lemma isdigit_not_delimitor (c : ascii) :
  isdigit c = true -> Ascii.eqb delimitor c = false.
Proof.
  each_byte c.
Qed.

(** A needle that starts with the delimiter is not found inside digits. *)
Lemma strstr_skip_digits (digits rest needle : string) :
  all_chars isdigit digits = true ->
  strstr (digits ++ rest) (String delimitor needle)
  = strstr rest (String delimitor needle).
Proof.
  induction digits as [|c digits IH]; intro H; [reflexivity|].
  simpl in H. apply andb_prop in H as [Hc Hd].
  simpl append. rewrite strstr_unfold. cbn [starts_with].
  rewrite (isdigit_not_delimitor c Hc). now apply IH.
Qed.

(** Digits at the start of a number that is followed by nothing or by a
    delimiter lie at the start of the number. *)
Lemma starts_with_number (needle number rest : string) :
  needle <> "" -> all_chars isdigit needle = true ->
  delimited (first_char rest) ->
  starts_with needle (number ++ rest) = true ->
  starts_with needle number = true.
Proof.
  intros Hne Hd Hr. revert needle Hne Hd.
  induction number as [|c number IH]; intros needle Hne Hd H.
  - destruct needle as [|x needle]; [now elim Hne|].
    simpl in Hd. apply andb_prop in Hd as [Hx _].
    destruct rest as [|r rest]; simpl in H; [discriminate|].
    simpl in Hr. subst r.
    rewrite Ascii.eqb_sym, (isdigit_not_delimitor x Hx) in H. discriminate.
  - destruct needle as [|x needle]; [reflexivity|].
    simpl in H |- *. destruct (Ascii.eqb x c); [|discriminate].
    destruct needle as [|y needle]; [reflexivity|].
    simpl in Hd. apply andb_prop in Hd as [_ Hd].
    apply IH; [discriminate | exact Hd | exact H].
Qed.









(** * Properties of the program *)

(** ** [hash] *)

Lemma to_unsigned_range (z : Z) : (0 <= to_unsigned z < 2 ^ 32)%Z.
Proof. unfold to_unsigned. apply Z.mod_pos_bound. reflexivity. Qed.

Lemma to_unsigned_to_int (u : Z) :
  (0 <= u < 2 ^ 32)%Z -> to_unsigned (to_int u) = u.
Proof.
  intro H. unfold to_int, to_unsigned.
  destruct (Z.ltb_spec u (2 ^ 31)).
  - apply Z.mod_small. lia.
  - replace (u - 2 ^ 32)%Z with (u + (-1) * 2 ^ 32)%Z by lia.
    rewrite Z.mod_add by discriminate. apply Z.mod_small. lia.
Qed.

Lemma to_int_range (u : Z) :
  (0 <= u < 2 ^ 32)%Z -> (- 2 ^ 31 <= to_int u < 2 ^ 31)%Z.
Proof.
  intro H. unfold to_int. destruct (Z.ltb_spec u (2 ^ 31)); lia.
Qed.

Lemma hash_loop_range (word : string) (h : Z) :
  (0 <= h < 2 ^ 32)%Z -> (0 <= hash_loop h word < 2 ^ 32)%Z.
Proof.
  revert h; induction word as [|c rest IH]; intros h H; simpl; [exact H|].
  apply IH, to_unsigned_range.
Qed.

Lemma hash_loop_polynomial (word : string) (h : Z) :
  to_unsigned (hash_loop h word)
  = to_unsigned (h * 31 ^ Z.of_nat (strlen word) + polynomial word).
Proof.
  revert h; induction word as [|c rest IH]; intro h.
  - simpl. f_equal. lia.
  - cbn [hash_loop polynomial]. rewrite IH. unfold to_unsigned.
    set (p := (31 ^ Z.of_nat (strlen rest))%Z).
    set (x := (31 * h + char_to_int c)%Z).
    rewrite <- (Z.add_mod_idemp_l (x mod 2 ^ 32 * p)) by discriminate.
    rewrite Z.mul_mod_idemp_l by discriminate.
    rewrite Z.add_mod_idemp_l by discriminate.
    f_equal. unfold strlen. cbn [String.length].
    rewrite Nat2Z.inj_succ, Z.pow_succ_r by lia.
    subst p x. unfold strlen. lia.
Qed.

Lemma hash_loop_append (a b : string) (h : Z) :
  hash_loop h (a ++ b) = hash_loop (hash_loop h a) b.
Proof.
  revert h; induction a as [|c a IH]; intro h; simpl; [reflexivity | apply IH].
Qed.

Lemma hash_loop_zero (word : string) :
  hash_loop 0 word = (polynomial word mod 2 ^ 32)%Z.
Proof.
  rewrite <- (Z.mod_small (hash_loop 0 word) (2 ^ 32))
    by (apply hash_loop_range; lia).
  exact (hash_loop_polynomial word 0).
Qed.

Lemma hash_eq_polynomial (a b : string) :
  hash a = hash b ->
  (polynomial a mod 2 ^ 32 = polynomial b mod 2 ^ 32)%Z.
Proof.
  unfold hash. intro H. rewrite <- !hash_loop_zero.
  rewrite <- (to_unsigned_to_int (hash_loop 0 a))
    by (apply hash_loop_range; lia).
  rewrite <- (to_unsigned_to_int (hash_loop 0 b))
    by (apply hash_loop_range; lia).
  now rewrite H.
Qed.

(** X1.  [hash] is the base-31 value of the bytes of the word, wrapped to
    32 bits and read as an [int]: it lies in the range of [int] and is
    congruent to that value modulo 2^32. *)
Theorem hash_polynomial (word : string) :
  (- 2 ^ 31 <= hash word < 2 ^ 31)%Z /\
  (hash word mod 2 ^ 32 = polynomial word mod 2 ^ 32)%Z /\
  hash word = to_int (polynomial word mod 2 ^ 32).
Proof.
  assert (0 <= hash_loop 0 word < 2 ^ 32)%Z as R
    by (apply hash_loop_range; lia).
  unfold hash. split; [now apply to_int_range|]. split.
  - rewrite <- hash_loop_zero. now apply to_unsigned_to_int.
  - now rewrite hash_loop_zero.
Qed.

(** X2.  Two words of the same length with the same hash still have the
    same hash when the same text is put before and after both: a
    collision of two stems is a collision of all the words built on
    them. *)
Theorem hash_collisions_extend (a b before after : string) :
  strlen a = strlen b -> hash a = hash b ->
  hash (before ++ a ++ after) = hash (before ++ b ++ after).
Proof.
  intros Hl Hh. apply hash_eq_polynomial in Hh. unfold hash.
  assert (forall h, (0 <= h < 2 ^ 32)%Z -> hash_loop h a = hash_loop h b) as E.
  { intros h R.
    rewrite <- (Z.mod_small (hash_loop h a) (2 ^ 32))
      by now apply hash_loop_range.
    rewrite <- (Z.mod_small (hash_loop h b) (2 ^ 32))
      by now apply hash_loop_range.
    change (to_unsigned (hash_loop h a) = to_unsigned (hash_loop h b)).
    rewrite !hash_loop_polynomial, <- Hl. unfold to_unsigned.
    rewrite <- (Z.add_mod_idemp_r _ (polynomial a)) by discriminate.
    rewrite <- (Z.add_mod_idemp_r _ (polynomial b)) by discriminate.
    now rewrite Hh. }
  rewrite !hash_loop_append. do 2 f_equal.
  apply E. apply hash_loop_range. lia.
Qed.

Lemma hash_collisions_extend_ae :
  hash ("fr" ++ "ae" ++ "d") = hash ("fr" ++ "c'" ++ "d").
Proof.
  apply (hash_collisions_extend "ae" "c'" "fr" "d"); reflexivity.
Defined.

(** ** [find_result] and what [add_result] keeps *)

Lemma find_none_keys (results : table) (k : Z) :
  HASH_FIND_INT results k = None <-> ~ In k (map key results).
Proof.
  induction results as [|r rest IH]; simpl; [tauto|].
  destruct (Z.eqb_spec (key r) k) as [E|N].
  - split; [discriminate | intro H; elim H; now left].
  - rewrite IH. tauto.
Qed.

Lemma store_keys (results : table) (k : Z) (s : result_struct) :
  key s = k -> map key (store results k s) = map key results.
Proof.
  intro Hk. induction results as [|r rest IH]; simpl; [reflexivity|].
  destruct (Z.eqb_spec (key r) k) as [E|N]; simpl; congruence.
Qed.

Lemma store_Forall (P : result_struct -> Prop) (results : table) (k : Z)
    (s : result_struct) :
  Forall P results -> P s -> Forall P (store results k s).
Proof.
  intros H Hs. induction H as [|r rest Hr Hrest IH]; simpl; [constructor|].
  destruct (Z.eqb (key r) k); constructor; auto.
Qed.

(** The table an accepted call leaves: the record under the key replaced
    in place, or a new last record. *)
Lemma add_result_shape (fresh : nat -> string) k name line_number results :
  strlen name < sizeof_word ->
  let s := mk_result k name
             (cat_line_number (summary_read fresh results k) line_number) in
  add_result fresh k name line_number results =
  Some match HASH_FIND_INT results k with
       | Some _ => store results k s
       | None => results ++ [s]
       end.
Proof.
  intros H s. rewrite add_result_accepts by exact H. fold s.
  destruct (HASH_FIND_INT results k) eqn:E; [reflexivity|].
  now rewrite store_new.
Qed.

(** X3.  After [add_result] has stored a name shorter than 45 bytes under
    a key, [find_result] returns for that key a record with that key and
    that name, and for every other key what it returned before; on the
    empty table it returns NULL. *)
Theorem find_result_after_add (fresh : nat -> string) (k : Z)
    (name line_number : string) (results : table) :
  strlen name < LONGEST_WORD_LEN ->
  exists results',
    add_result fresh k name line_number results = Some results' /\
    (exists s, find_result results' k = Some s /\
               key s = k /\ word s = name) /\
    (forall k', k' <> k -> find_result results' k' = find_result results k') /\
    find_result [] k = None.
Proof.
  intro H.
  destruct (add_result_lookup fresh k name line_number results H)
    as (results' & E & F & O).
  exists results'. split; [exact E|]. split; [|split; [exact O|reflexivity]].
  eexists. split; [exact F|]. split; reflexivity.
Qed.

Lemma find_result_after_add_dogs :
  exists results',
    add_result zeroed (hash "dogs") "dogs" " 1" sample_table = Some results' /\
    (exists s, find_result results' (hash "dogs") = Some s /\
               key s = hash "dogs" /\ word s = "dogs") /\
    (forall k', k' <> hash "dogs" ->
                find_result results' k' = find_result sample_table k') /\
    find_result [] (hash "dogs") = None.
Proof.
  apply (find_result_after_add zeroed (hash "dogs") "dogs" " 1" sample_table).
  apply Nat.ltb_lt. reflexivity.
Defined.

Lemma last_stored_some (k : Z) (ops : list (string * nat)) :
  last_stored k ops None <> None <->
  exists token n, In (token, n) ops /\ hash token = k /\
                  strlen token < sizeof_word.
Proof.
  induction ops as [|[t m] ops IH]; simpl.
  - split; [intro H; now elim H | intros (? & ? & [] & _)].
  - rewrite last_stored_current.
    destruct (last_stored k ops None) as [w|] eqn:E.
    + split; [|discriminate]. intros _.
      destruct (proj1 IH) as (token & n & Hin & Hk & Hl); [discriminate|].
      exists token, n. auto.
    + destruct (Z.eqb_spec (hash t) k) as [Hk|Hk];
        destruct (Nat.ltb_spec (strlen t) sizeof_word) as [Hl|Hl]; simpl.
      * split; [|discriminate]. intros _. exists t, m. auto.
      * split; [intro H; now elim H|].
        intros (token & n & [[= -> ->]|Hin] & Hk' & Hl'); [lia|].
        apply IH. eauto.
      * split; [intro H; now elim H|].
        intros (token & n & [[= -> ->]|Hin] & Hk' & Hl'); [contradiction|].
        apply IH. eauto.
      * split; [intro H; now elim H|].
        intros (token & n & [[= -> ->]|Hin] & Hk' & Hl'); [contradiction|].
        apply IH. eauto.
Qed.

(** X4.  After a run of calls from the empty table, [find_result] finds a
    key exactly when the run had a token shorter than 45 bytes with that
    hash. *)
Theorem key_present (fresh : nat -> string) (ops : list (string * nat))
    (results : table) (k : Z) :
  run_upserts fresh ops [] = Some results ->
  (find_result results k <> None <->
   exists token n, In (token, n) ops /\ hash token = k /\
                   strlen token < LONGEST_WORD_LEN).
Proof.
  intro E. pose proof (last_stored_word fresh k ops [] results E) as H.
  rewrite <- (last_stored_some k ops). unfold find_result.
  simpl in H. destruct (HASH_FIND_INT results k);
    destruct (last_stored k ops None); simpl in H; try discriminate;
    split; intro X; try discriminate; now elim X.
Qed.

Lemma key_present_sample :
  find_result sample_table (hash "chase") <> None <->
  exists token n,
    In (token, n) (line_ops (read_lines sample) 0) /\
    hash token = hash "chase" /\ strlen token < LONGEST_WORD_LEN.
Proof.
  apply (key_present zeroed (line_ops (read_lines sample) 0) sample_table).
  vm_compute. reflexivity.
Defined.

(** X5.  In the table a run of calls from the empty table leaves, no two
    records have the same key, and every record's key is the hash of the
    word it holds, a word shorter than 45 bytes. *)
Theorem keys_unique (fresh : nat -> string) (ops : list (string * nat))
    (results : table) :
  run_upserts fresh ops [] = Some results ->
  NoDup (map key results) /\
  Forall (fun s => key s = hash (word s) /\
                   strlen (word s) < LONGEST_WORD_LEN) results.
Proof.
  apply (run_invariant fresh
           (fun t => NoDup (map key t) /\
                     Forall (fun s => key s = hash (word s) /\
                                      strlen (word s) < LONGEST_WORD_LEN) t));
    [|split; constructor].
  intros token n t t' [Hn Hf] E. unfold upsert in E.
  destruct (Nat.lt_trichotomy (strlen token) sizeof_word) as [H|[H|H]].
  - rewrite add_result_shape in E by exact H. injection E as <-.
    destruct (HASH_FIND_INT t (hash token)) eqn:F.
    + split; [now rewrite store_keys|].
      apply store_Forall; [exact Hf | now split].
    + split.
      * rewrite map_app. simpl. apply NoDup_app; [exact Hn|repeat constructor; intros []|].
        intros x Hx [<-|[]].
        exact (proj1 (find_none_keys t (hash token)) F Hx).
      * apply Forall_app. split; [exact Hf|].
        constructor; [split; [reflexivity | exact H] | constructor].
  - now rewrite add_result_overflows in E.
  - rewrite add_result_rejects in E by exact H. now injection E as <-.
Qed.

Lemma keys_unique_sample :
  NoDup (map key sample_table) /\
  Forall (fun s => key s = hash (word s) /\
                   strlen (word s) < LONGEST_WORD_LEN) sample_table.
Proof.
  apply (keys_unique zeroed (line_ops (read_lines sample) 0) sample_table).
  vm_compute. reflexivity.
Defined.

(** X6.  A run of calls never removes a record, never changes a key and
    never moves a record: the keys of the table it started from are, in
    the same order, the first keys of the table it leaves. *)
Theorem records_kept (fresh : nat -> string) (ops : list (string * nat))
    (results results' : table) :
  run_upserts fresh ops results = Some results' ->
  exists added, map key results' = map key results ++ added.
Proof.
  apply (run_invariant fresh
           (fun t => exists added, map key t = map key results ++ added));
    [|exists []; now rewrite app_nil_r].
  intros token n t t' [added Ht] E. unfold upsert in E.
  destruct (Nat.lt_trichotomy (strlen token) sizeof_word) as [H|[H|H]].
  - rewrite add_result_shape in E by exact H. injection E as <-.
    destruct (HASH_FIND_INT t (hash token)).
    + exists added. now rewrite store_keys.
    + exists (added ++ [hash token]).
      now rewrite map_app, Ht, app_assoc.
  - now rewrite add_result_overflows in E.
  - rewrite add_result_rejects in E by exact H. injection E as <-.
    now exists added.
Qed.

Lemma records_kept_sample :
  exists added,
    map key sample_table
    = map key [mk_result (hash "dogs") "dogs" " 1"] ++ added.
Proof.
  apply (records_kept zeroed
           [("chase", 1); ("cats", 1); ("cats", 2); ("chase", 2); ("dogs", 2)]
           [mk_result (hash "dogs") "dogs" " 1"] sample_table).
  vm_compute. reflexivity.
Defined.



(** ** [name_sort] *)

Lemma strcmp_refl (a : string) : strcmp a a = 0%Z.
Proof.
  induction a as [|c a IH]; simpl; [reflexivity|].
  now rewrite Ascii.eqb_refl.
Qed.

Lemma uchar_zero (c : ascii) :
  negb (Ascii.eqb c NUL) = true -> (0 < Z.of_N (uchar c))%Z.
Proof.
  intro H. apply negb_true_iff, Ascii.eqb_neq in H.
  assert (uchar c <> 0%N) by (intro U; now apply H, uchar_inj).
  lia.
Qed.

(** On C strings (no NUL byte inside) "not greater" is transitive. *)
Lemma strcmp_le_trans (a b c : string) :
  all_chars (fun x => negb (Ascii.eqb x NUL)) a = true ->
  all_chars (fun x => negb (Ascii.eqb x NUL)) b = true ->
  (strcmp a b <= 0)%Z -> (strcmp b c <= 0)%Z -> (strcmp a c <= 0)%Z.
Proof.
  revert b c; induction a as [|x a IH]; intros [|y b] [|z c] Ha Hb Hab Hbc;
    simpl in Ha, Hb;
    try (apply andb_prop in Ha as [Hx Ha]; apply uchar_zero in Hx);
    try (apply andb_prop in Hb as [Hy Hb]; apply uchar_zero in Hy);
    simpl in *; try lia.
  destruct (Ascii.eqb_spec x y) as [->|Nxy];
    destruct (Ascii.eqb_spec y z) as [->|Nyz].
  - eapply IH; eassumption.
  - exact Hbc.
  - apply Ascii.eqb_neq in Nxy. now rewrite Nxy.
  - destruct (Ascii.eqb_spec x z) as [->|Nxz]; [|lia].
    assert (uchar z <> uchar y)
      by (intro U; now apply Nxy, uchar_inj).
    lia.
Qed.

(** X8.  [name_sort] is a comparison a sort can rely on: a record compares
    equal to itself, swapping the arguments swaps the sign, and on words
    that are C strings (no NUL byte inside) "not greater" is transitive. *)
Theorem name_sort_order (a b c : result_struct) :
  all_chars (fun x => negb (Ascii.eqb x NUL)) (word a) = true ->
  all_chars (fun x => negb (Ascii.eqb x NUL)) (word b) = true ->
  name_sort a a = 0%Z /\
  name_sort b a = (- name_sort a b)%Z /\
  ((name_sort a b <= 0)%Z -> (name_sort b c <= 0)%Z ->
   (name_sort a c <= 0)%Z).
Proof.
  intros Ha Hb. unfold name_sort. split; [apply strcmp_refl|].
  split; [apply strcmp_opp | now apply strcmp_le_trans].
Qed.

Lemma name_sort_order_sample :
  name_sort (mk_result 1 "cats" "") (mk_result 1 "cats" "") = 0%Z /\
  name_sort (mk_result 2 "chase" "") (mk_result 1 "cats" "")
  = (- name_sort (mk_result 1 "cats" "") (mk_result 2 "chase" ""))%Z /\
  ((name_sort (mk_result 1 "cats" "") (mk_result 2 "chase" "") <= 0)%Z ->
   (name_sort (mk_result 2 "chase" "") (mk_result 3 "dogs" "") <= 0)%Z ->
   (name_sort (mk_result 1 "cats" "") (mk_result 3 "dogs" "") <= 0)%Z).
Proof.
  apply (name_sort_order (mk_result 1 "cats" "") (mk_result 2 "chase" "")
           (mk_result 3 "dogs" "")); reflexivity.
Defined.

(** ** The token loop of [main] *)

Lemma strtok_r_shorter (s token saveptr : string) :
  strtok_r s = Some (token, saveptr) -> strlen saveptr < strlen s.
Proof.
  unfold strtok_r. intro H.
  destruct (skip_delimiters_split s) as (d & Es & _).
  destruct (skip_delimiters s) as [|c r] eqn:Ek; [discriminate|].
  pose proof (skip_delimiters_head _ _ _ Ek) as Hc.
  destruct (token_end_split (String c r)) as (rest & Er & _ & Hr).
  destruct (token_end (String c r)) as [t sp] eqn:Et.
  injection H as -> ->. cbn [fst snd] in Er, Hr.
  assert (token <> "") as Hne.
  { intro Ht. subst token. cbn [token_end] in Et. rewrite Hc in Et.
    destruct (token_end r); discriminate. }
  rewrite Es, Er, !strlen_append.
  destruct token; [now elim Hne|].
  destruct Hr as [[-> ->]| ->]; unfold strlen; simpl; lia.
Qed.

(** Any fuel above the length of the string gives the same tokens. *)
Lemma strtok_loop_fuel (fuel fuel' : nat) (s : string) :
  strlen s < fuel -> strlen s < fuel' ->
  strtok_loop fuel s = strtok_loop fuel' s.
Proof.
  revert fuel' s; induction fuel as [|fuel IH]; intros fuel' s H H'; [lia|].
  destruct fuel' as [|fuel']; [lia|]. simpl.
  destruct (strtok_r s) as [[token saveptr]|] eqn:E; [|reflexivity].
  apply strtok_r_shorter in E. f_equal. apply IH; lia.
Qed.

Lemma token_end_cases (x : string) :
  (free_of_delimitor x = true /\
   forall y, token_end (x ++ String delimitor y) = (x, y)) \/
  (exists token x',
      token_end x = (token, x') /\ strlen x' < strlen x /\
      forall z, token_end (x ++ z) = (token, (x' ++ z)%string)).
Proof.
  induction x as [|c x IH].
  - left. split; reflexivity.
  - destruct (Ascii.eqb_spec c delimitor) as [->|N].
    + right. exists "", x. repeat split. unfold strlen; simpl; lia.
    + apply Ascii.eqb_neq in N. destruct IH as [[Hf Hy]|(t & x' & E & Hl & Hz)].
      * left. split.
        -- unfold free_of_delimitor in *. cbn [all_chars]. now rewrite N, Hf.
        -- intro y. cbn [append token_end]. now rewrite N, Hy.
      * right. exists (String c t), x'. split; [|split].
        -- cbn [token_end]. now rewrite N, E.
        -- unfold strlen in *. simpl. lia.
        -- intro z. cbn [append token_end]. now rewrite N, Hz.
Qed.

Lemma token_end_free (x : string) :
  free_of_delimitor x = true -> token_end x = (x, "").
Proof.
  unfold free_of_delimitor. induction x as [|c x IH]; simpl; [reflexivity|].
  intro H. apply andb_prop in H as [Hc Hx]. apply negb_true_iff in Hc.
  now rewrite Hc, IH.
Qed.

(** A delimiter splits the work of the loop in two. *)
Lemma strtok_loop_split (y : string) (fuel : nat) :
  forall x,
    strlen x < fuel ->
    strtok_loop (fuel + S (strlen y)) (x ++ String delimitor y)
    = strtok_loop fuel x ++ strtok_loop (S (strlen y)) y.
Proof.
  induction fuel as [|fuel IH]; intros x H; [lia|].
  destruct x as [|c x].
  - simpl append. cbn [Nat.add]. rewrite strtok_loop_delimitor.
    rewrite strtok_loop_empty. apply strtok_loop_fuel; lia.
  - destruct (Ascii.eqb_spec c delimitor) as [->|N].
    + simpl append. cbn [Nat.add]. rewrite !strtok_loop_delimitor.
      unfold strlen in H. simpl in H.
      rewrite (strtok_loop_fuel (S (fuel + S (strlen y))) (fuel + S (strlen y)))
        by (rewrite !strlen_append; unfold strlen; simpl; lia).
      rewrite IH by (unfold strlen; lia).
      f_equal. apply strtok_loop_fuel; unfold strlen; lia.
    + apply Ascii.eqb_neq in N. simpl append. cbn [Nat.add].
      rewrite !strtok_loop_token by exact N.
      change (String c (x ++ String delimitor y))
        with (String c x ++ String delimitor y)%string.
      destruct (token_end_cases (String c x)) as [[Hf Hy]|(t & x' & E & Hl & Hz)].
      * rewrite Hy, (token_end_free _ Hf). cbn [fst snd].
        rewrite strtok_loop_empty.
        change ([String c x] ++ strtok_loop (S (strlen y)) y)
          with (String c x :: strtok_loop (S (strlen y)) y).
        f_equal. apply strtok_loop_fuel; lia.
      * rewrite Hz, E. cbn [fst snd]. rewrite <- app_comm_cons. f_equal.
        apply IH. lia.
Qed.

Lemma cstr_no_NUL (u rest : string) :
  all_chars (fun c => negb (Ascii.eqb c NUL)) u = true ->
  cstr (u ++ rest) = (u ++ cstr rest)%string.
Proof.
  induction u as [|c u IH]; simpl; [reflexivity|].
  intro H. apply andb_prop in H as [Hc Hu]. apply negb_true_iff in Hc.
  now rewrite Hc, IH.
Qed.

Lemma cstr_whole (u : string) :
  all_chars (fun c => negb (Ascii.eqb c NUL)) u = true -> cstr u = u.
Proof.
  intro H. rewrite <- (append_empty_r u) at 1.
  rewrite (cstr_no_NUL u "" H). apply append_empty_r.
Qed.

Lemma word_chars_no_NUL (w : string) :
  all_chars word_char w = true ->
  all_chars (fun x => negb (Ascii.eqb x NUL)) w = true.
Proof.
  induction w as [|c w IH]; [reflexivity|]. cbn [all_chars].
  intro H. apply andb_prop in H as [Hc Hw]. rewrite IH by exact Hw.
  destruct (Ascii.eqb_spec c NUL) as [->|]; [discriminate | reflexivity].
Qed.

(** X9.  A byte that is neither a letter nor an apostrophe (nor NUL) cuts
    a line in two: the tokens of the line are the tokens of what stands
    before the byte, followed by the tokens of what stands after it.  A
    hyphenated word is therefore two tokens. *)
Theorem line_tokens_split (u v : string) (c : ascii) :
  word_char c = false -> c <> NUL ->
  all_chars (fun x => negb (Ascii.eqb x NUL)) u = true ->
  line_tokens (u ++ String c v) = line_tokens u ++ line_tokens v.
Proof.
  intros Hw Hc Hu. unfold line_tokens. rewrite !cstr_scan_line.
  rewrite (cstr_no_NUL u (String c v) Hu), (cstr_whole u Hu).
  cbn [cstr]. apply Ascii.eqb_neq in Hc. rewrite Hc.
  rewrite map_chars_append. cbn [map_chars].
  rewrite (scan_char_not_word c Hw).
  set (x := map_chars scan_char u). set (y := map_chars scan_char (cstr v)).
  rewrite <- (strtok_loop_split y (S (strlen x)) x) by lia.
  apply strtok_loop_fuel; rewrite strlen_append; unfold strlen; simpl; lia.
Qed.

Lemma line_tokens_split_hyphen :
  line_tokens ("well" ++ String "-" "known")
  = line_tokens "well" ++ line_tokens "known".
Proof.
  apply (line_tokens_split "well" "known" "-"%char);
    [reflexivity | discriminate | reflexivity].
Defined.

(** X10.  A non-empty stretch of letters and apostrophes alone on a line
    is one token, the stretch in lower case: an apostrophe does not split
    a word. *)
Theorem line_tokens_word (w : string) :
  w <> "" -> all_chars word_char w = true ->
  line_tokens w = [lowercase w].
Proof.
  intros Hne Hw. unfold line_tokens. rewrite cstr_scan_line.
  rewrite (cstr_whole w (word_chars_no_NUL w Hw)).
  rewrite (all_chars_map_scan w Hw).
  pose proof (lowercase_free w Hw) as Hf.
  destruct (lowercase w) as [|c t] eqn:E.
  { destruct w; [now elim Hne | discriminate]. }
  rewrite strtok_loop_token.
  - rewrite (token_end_free _ Hf). cbn [fst snd].
    now rewrite strtok_loop_empty.
  - unfold free_of_delimitor in Hf. simpl in Hf.
    apply andb_prop in Hf as [Hc _]. now apply negb_true_iff in Hc.
Qed.

Lemma line_tokens_word_its :
  line_tokens "IT'S" = [lowercase "IT'S"].
Proof.
  apply (line_tokens_word "IT'S"); [discriminate | reflexivity].
Defined.

Lemma tolower_token_byte (c : ascii) :
  word_char c = true ->
  (islower (tolower c) || Ascii.eqb (tolower c) apostrophe) = true.
Proof.
  each_byte c.
Qed.

Lemma strlen_cstr_le (s : string) : strlen (cstr s) <= strlen s.
Proof.
  unfold strlen. induction s as [|c s IH]; simpl; [lia|].
  destruct (Ascii.eqb c NUL); simpl; lia.
Qed.

(** X11.  Every token [main] hands to [add_result] is non-empty, is made
    of lower-case letters and apostrophes only, and is no longer than the
    line it was cut from. *)
Theorem line_tokens_bytes (test_line : string) :
  Forall (fun token =>
            token <> "" /\
            all_chars (fun c => islower c || Ascii.eqb c apostrophe) token
            = true /\
            strlen token <= strlen test_line)
         (line_tokens test_line).
Proof.
  apply Forall_forall. intros token H.
  apply line_tokens_runs in H as (run & (x & y & E & Hne & Hw & _) & ->).
  split; [|split].
  - destruct run; [now elim Hne | discriminate].
  - clear E Hne. unfold lowercase.
    induction run as [|c run IH]; [reflexivity|]. cbn [all_chars map_chars].
    cbn [all_chars] in Hw. apply andb_prop in Hw as [Hc Hw].
    now rewrite (tolower_token_byte c Hc), IH.
  - rewrite strlen_lowercase. pose proof (strlen_cstr_le test_line) as L.
    rewrite E, !strlen_append in L. lia.
Qed.

(** ** Upper and lower case *)

Lemma tolower_newline (c : ascii) :
  Ascii.eqb (tolower c) newline = Ascii.eqb c newline.
Proof.
  each_byte c.
Qed.

Lemma tolower_NUL (c : ascii) :
  Ascii.eqb (tolower c) NUL = Ascii.eqb c NUL.
Proof.
  each_byte c.
Qed.

Lemma scan_char_tolower (c : ascii) : scan_char (tolower c) = scan_char c.
Proof.
  each_byte c.
Qed.

Lemma read_lines_lowercase (stdin : string) :
  read_lines (lowercase stdin) = map lowercase (read_lines stdin).
Proof.
  unfold lowercase. induction stdin as [|c rest IH]; [reflexivity|].
  cbn [map_chars read_lines]. rewrite tolower_newline, IH.
  destruct (Ascii.eqb c newline); [reflexivity|].
  now destruct (read_lines rest).
Qed.

Lemma cstr_lowercase (s : string) : cstr (lowercase s) = lowercase (cstr s).
Proof.
  unfold lowercase. induction s as [|c s IH]; [reflexivity|].
  cbn [map_chars cstr]. rewrite tolower_NUL.
  destruct (Ascii.eqb c NUL); [reflexivity|]. cbn [map_chars]. now rewrite IH.
Qed.

Lemma line_tokens_lowercase (test_line : string) :
  line_tokens (lowercase test_line) = line_tokens test_line.
Proof.
  unfold line_tokens. rewrite !cstr_scan_line, cstr_lowercase.
  assert (forall s, map_chars scan_char (lowercase s) = map_chars scan_char s)
    as ->; [|reflexivity].
  unfold lowercase. induction s as [|c s IH]; [reflexivity|].
  cbn [map_chars]. now rewrite scan_char_tolower, IH.
Qed.

Lemma line_ops_lowercase (lines : list string) (line_number : nat) :
  line_ops (map lowercase lines) line_number = line_ops lines line_number.
Proof.
  revert line_number; induction lines as [|l lines IH]; intro n;
    [reflexivity|].
  cbn [map line_ops]. now rewrite line_tokens_lowercase, IH.
Qed.

Lemma main_loop_lowercase (m : machine) (fresh : nat -> string)
    (lines : list string) :
  forall lineptr line_number results,
    main_loop m fresh (map lowercase lines) lineptr line_number results
    = main_loop m fresh lines lineptr line_number results.
Proof.
  induction lines as [|l lines IH]; intros lineptr n results;
    cbn [map main_loop]; [reflexivity|].
  rewrite strlen_lowercase, line_tokens_lowercase.
  destruct (INT_MAX <=? Z.of_nat n)%Z; [reflexivity|].
  destruct (negb (getline_defined m lineptr)); [reflexivity|].
  destruct (INT_MAX <? Z.of_nat (strlen l))%Z; [reflexivity|].
  destruct (add_tokens fresh (line_tokens l) (S n) results);
    [apply IH | reflexivity].
Qed.

(** X12.  The program does not see the case of its input: two inputs
    that agree once their upper-case letters are made lower-case give the
    same report, or both none, whatever the machine and whatever the
    allocator returns. *)
Theorem main_ignores_case (m : machine) (fresh : nat -> string)
    (stdin stdin' : string) :
  lowercase stdin = lowercase stdin' ->
  main m fresh stdin = main m fresh stdin'.
Proof.
  intro H.
  assert (forall s, main m fresh (lowercase s) = main m fresh s) as L.
  { intro s. unfold main.
    now rewrite read_lines_lowercase, main_loop_lowercase. }
  now rewrite <- (L stdin), <- (L stdin'), H.
Qed.

Lemma main_ignores_case_dogs :
  main ilp32 zeroed "Dogs chase CATS." = main ilp32 zeroed "dogs Chase cats.".
Proof.
  apply (main_ignores_case ilp32 zeroed "Dogs chase CATS."
           "dogs Chase cats.").
  reflexivity.
Defined.

(** ** Input without words *)

Lemma read_lines_bytes (p : ascii -> bool) (stdin : string) :
  all_chars p stdin = true ->
  Forall (fun test_line => all_chars p test_line = true) (read_lines stdin).
Proof.
  induction stdin as [|c rest IH]; [constructor|].
  cbn [all_chars read_lines]. intro H. apply andb_prop in H as [Hc Hr].
  specialize (IH Hr).
  destruct (Ascii.eqb c newline).
  - constructor; [cbn [all_chars]; now rewrite Hc | exact IH].
  - destruct (read_lines rest) as [|l ls].
    + constructor; [cbn [all_chars]; now rewrite Hc | constructor].
    + inversion IH as [|? ? Hl Hls]; subst.
      constructor; [cbn [all_chars]; now rewrite Hc, Hl | exact Hls].
Qed.

Lemma all_chars_append (p : ascii -> bool) (a b : string) :
  all_chars p (a ++ b) = all_chars p a && all_chars p b.
Proof.
  induction a as [|c a IH]; [reflexivity|]. cbn [append all_chars].
  now rewrite IH, andb_assoc.
Qed.

Lemma all_chars_cstr (p : ascii -> bool) (s : string) :
  all_chars p s = true -> all_chars p (cstr s) = true.
Proof.
  induction s as [|c s IH]; [reflexivity|]. cbn [all_chars cstr].
  intro H. apply andb_prop in H as [Hc Hs].
  destruct (Ascii.eqb c NUL); [reflexivity|]. cbn [all_chars].
  now rewrite Hc, IH.
Qed.

Lemma line_tokens_wordless (test_line : string) :
  all_chars (fun c => negb (word_char c)) test_line = true ->
  line_tokens test_line = [].
Proof.
  intro H. destruct (line_tokens test_line) as [|token rest] eqn:E;
    [reflexivity|].
  assert (In token (line_tokens test_line)) as I by (rewrite E; now left).
  apply line_tokens_runs in I as (run & (x & y & Ex & Hne & Hw & _) & _).
  apply all_chars_cstr in H. rewrite Ex, !all_chars_append in H.
  apply andb_prop in H as [_ H]. apply andb_prop in H as [H _].
  destruct run as [|c run]; [now elim Hne|].
  cbn [all_chars] in H, Hw.
  apply andb_prop in H as [H _]. apply andb_prop in Hw as [Hw _].
  rewrite Hw in H. discriminate.
Qed.

Lemma line_ops_wordless (lines : list string) (line_number : nat) :
  Forall (fun l => all_chars (fun c => negb (word_char c)) l = true) lines ->
  line_ops lines line_number = [].
Proof.
  intro H. revert line_number; induction H as [|l lines Hl _ IH]; intro n;
    [reflexivity|].
  cbn [line_ops]. now rewrite (line_tokens_wordless l Hl), IH.
Qed.

(** X13.  Where the calls of [getline] are defined and the lines fit
    [int], the program prints nothing on an input with no letter and no
    apostrophe; and a line without letters and apostrophes is counted but
    leaves the table as it is. *)
Theorem main_wordless (m : machine) (fresh : nat -> string) (text : string) :
  all_chars (fun c => negb (word_char c)) text = true ->
  (getline_defined m indeterminate = true ->
   fit_int (read_lines text) 0 ->
   main m fresh text = Some "") /\
  (forall lines lineptr line_number results,
      getline_defined m lineptr = true ->
      fit_int (text :: lines) line_number ->
      main_loop m fresh (text :: lines) lineptr line_number results
      = main_loop m fresh lines buffer (S line_number) results).
Proof.
  intro H. split.
  - intros Hg Hfit. unfold main. rewrite main_loop_run by assumption.
    now rewrite (line_ops_wordless _ 0 (read_lines_bytes _ text H)).
  - intros lines lineptr n results Hg Hfit.
    rewrite !main_loop_run;
      [|now apply getline_defined_buffer with lineptr
       |now apply fit_int_tail in Hfit|exact Hg|exact Hfit].
    cbn [line_ops]. now rewrite (line_tokens_wordless text H).
Qed.

Lemma main_wordless_numbers :
  (getline_defined ilp32 indeterminate = true ->
   fit_int (read_lines "12 + 30 = 42.") 0 ->
   main ilp32 zeroed "12 + 30 = 42." = Some "") /\
  (forall lines lineptr line_number results,
      getline_defined ilp32 lineptr = true ->
      fit_int ("12 + 30 = 42." :: lines) line_number ->
      main_loop ilp32 zeroed ("12 + 30 = 42." :: lines) lineptr line_number
        results
      = main_loop ilp32 zeroed lines buffer (S line_number) results).
Proof.
  apply (main_wordless ilp32 zeroed "12 + 30 = 42."). reflexivity.
Defined.

(** ** The line numbers of a summary *)

Lemma summary_of_app (a b : list nat) :
  summary_of (a ++ b) = (summary_of a ++ summary_of b)%string.
Proof.
  induction a as [|n a IH]; [reflexivity|].
  change (summary_of ((n :: a) ++ b))
    with (sprintf_d n ++ summary_of (a ++ b))%string.
  change (summary_of (n :: a)) with (sprintf_d n ++ summary_of a)%string.
  now rewrite IH, append_assoc.
Qed.

Lemma summary_of_first (ns : list nat) : delimited (first_char (summary_of ns)).
Proof. destruct ns; reflexivity. Qed.

Lemma summary_of_occurs (ns : list nat) (m : nat) :
  In m ns -> occurs_in (sprintf_d m) (summary_of ns).
Proof.
  induction ns as [|n ns IH]; [contradiction|]. intros [->|H].
  - exists "", (summary_of ns). reflexivity.
  - destruct (IH H) as (b & a & E). exists (sprintf_d n ++ b)%string, a.
    cbn [summary_of]. now rewrite E, append_assoc.
Qed.

(** The marker of a line does not occur among the markers of earlier
    lines. *)
Lemma strstr_summary_of (ns : list nat) (m : nat) :
  Forall (fun n => n < m) ns ->
  strstr (summary_of ns) (sprintf_d m) = None.
Proof.
  induction 1 as [|n ns Hn _ IH]; [reflexivity|].
  cbn [summary_of]. rewrite !sprintf_d_decimal. simpl append.
  rewrite strstr_unfold. cbn [starts_with]. rewrite Ascii.eqb_refl.
  destruct (starts_with (decimal m) (decimal n ++ summary_of ns)) eqn:E.
  - apply starts_with_number in E;
      [|apply decimal_not_empty|apply decimal_digits|apply summary_of_first].
    apply decimal_starts_with in E. lia.
  - rewrite strstr_skip_digits by apply decimal_digits.
    rewrite <- sprintf_d_decimal. exact IH.
Qed.

Lemma sorted_app (A : Type) (R : A -> A -> Prop) (a b : list A) :
  StronglySorted R a -> StronglySorted R b ->
  (forall x y, In x a -> In y b -> R x y) ->
  StronglySorted R (a ++ b).
Proof.
  intros Ha Hb H. induction Ha as [|x a Ha IH Hx]; [exact Hb|].
  cbn [app]. constructor.
  - apply IH. intros; apply H; [now right | assumption].
  - apply Forall_app. split; [exact Hx|].
    apply Forall_forall. intros y Hy. apply H; [now left | exact Hy].
Qed.

Lemma sorted_before (A : Type) (R : A -> A -> Prop) (a b : list A) (x : A) :
  StronglySorted R (a ++ x :: b) -> Forall (fun y => R y x) a.
Proof.
  induction a as [|y a IH]; [constructor|]. cbn [app]. intro H.
  inversion H as [|? ? Hs Hf]; subst. constructor; [|now apply IH].
  apply Forall_app in Hf as [_ Hf]. now inversion Hf.
Qed.

Lemma line_ops_sorted (lines : list string) (line_number : nat) :
  StronglySorted le (map snd (line_ops lines line_number)).
Proof.
  revert line_number; induction lines as [|l lines IH]; intro n;
    [constructor|].
  cbn [line_ops]. rewrite map_app, map_map. cbn [snd].
  apply sorted_app; [|apply IH|].
  - induction (line_tokens l) as [|t ts IHt]; [constructor|].
    cbn [map]. constructor; [exact IHt|].
    apply Forall_forall. intros x Hx. apply in_map_iff in Hx as (_ & <- & _).
    lia.
  - intros x y Hx Hy. apply in_map_iff in Hx as (_ & <- & _).
    apply in_map_iff in Hy as ([t m] & <- & Hy).
    apply line_ops_In in Hy as (i & _ & _ & -> & _). cbn [snd]. lia.
Qed.

(** One more call keeps what the table says about every key. *)
Lemma upsert_summary_lists (fresh : nat -> string)
    (done : list (string * nat)) (token : string) (m : nat)
    (results results' : table) (k : Z) :
  (forall n, fresh n = "") ->
  Forall (fun op => snd op <= m) done ->
  match HASH_FIND_INT results k with
  | Some s => summary_lists k done (line_summary s)
  | None => forall op, In op done -> ~ stores_under k op
  end ->
  upsert fresh token m results = Some results' ->
  match HASH_FIND_INT results' k with
  | Some s => summary_lists k (done ++ [(token, m)]) (line_summary s)
  | None => forall op, In op (done ++ [(token, m)]) -> ~ stores_under k op
  end.
Proof.
  intros Hfresh Hle Inv E.
  rewrite (upsert_lookup fresh _ _ _ _ k E).
  destruct (Z.eqb_spec (hash token) k) as [Hk|Hk];
    [destruct (Nat.ltb_spec (strlen token) sizeof_word) as [Hl|Hl]|];
    cbn [andb].
  - (* the call stores under [k] *)
    cbn [line_summary].
    assert (summary_lists k done (summary_read fresh results k)) as
        (ns & Es & Hs & Hsound & Hcomplete).
    { unfold summary_read. destruct (HASH_FIND_INT results k) as [s|];
        [exact Inv|].
      rewrite Hfresh. exists []. split; [reflexivity|].
      split; [constructor|]. split; [contradiction|].
      intros _ t n Hin Hst. elim (Inv _ Hin Hst). }
    assert (Forall (fun n => n <= m) ns) as Hns.
    { apply Forall_forall. intros n Hn.
      destruct (Hsound n Hn) as (t & Hin & _).
      rewrite Forall_forall in Hle. exact (Hle _ Hin). }
    rewrite cat_line_number_unfold.
    destruct (Nat.ltb_spec (strlen (summary_read fresh results k))
                summary_limit) as [Hlt|Hge].
    + destruct (strstr (summary_read fresh results k) (sprintf_d m)) eqn:Ef.
      * (* the marker is there already *)
        exists ns. split; [exact Es|]. split; [exact Hs|]. split.
        -- intros n Hn. destruct (Hsound n Hn) as (t & Hin & Hst).
           exists t. split; [apply in_or_app; now left | exact Hst].
        -- intros _ t n Hin Hst. apply in_app_or in Hin as [Hin|[Hin|[]]].
           ++ now apply (Hcomplete Hlt t).
           ++ injection Hin as <- <-.
              destruct (in_dec Nat.eq_dec m ns) as [Hm|Hm]; [exact Hm|].
              rewrite Es, strstr_summary_of in Ef; [discriminate|].
              rewrite Forall_forall in Hns |- *. intros n Hn.
              specialize (Hns n Hn).
              assert (n <> m) by (intros ->; contradiction). lia.
      * (* the marker is appended *)
        assert (~ In m ns) as Hm.
        { intro Hm. apply summary_of_occurs in Hm.
          apply strstr_occurs in Hm. now rewrite <- Es, Ef in Hm. }
        exists (ns ++ [m]). split; [|split; [|split]].
        -- rewrite summary_of_app, Es. cbn [summary_of].
           now rewrite append_empty_r.
        -- apply sorted_app; [exact Hs | repeat constructor|].
           intros x y Hx [Hy|[]]. subst y. rewrite Forall_forall in Hns.
           specialize (Hns x Hx).
           assert (x <> m) by (intros ->; contradiction). lia.
        -- intros n Hn. apply in_app_or in Hn as [Hn|[<-|[]]].
           ++ destruct (Hsound n Hn) as (t & Hin & Hst).
              exists t. split; [apply in_or_app; now left | exact Hst].
           ++ exists token. split; [apply in_or_app; right; now left|].
              split; [exact Hk | exact Hl].
        -- intros _ t n Hin Hst. apply in_or_app.
           apply in_app_or in Hin as [Hin|[Hin|[]]].
           ++ left. now apply (Hcomplete Hlt t).
           ++ injection Hin as <- <-. right. now left.
    + (* the summary is truncated *)
      exists ns. split; [exact Es|]. split; [exact Hs|]. split.
      * intros n Hn. destruct (Hsound n Hn) as (t & Hin & Hst).
        exists t. split; [apply in_or_app; now left | exact Hst].
      * intro Hlt. lia.
  - (* the word is too long: the call returns at once *)
    destruct (HASH_FIND_INT results k) as [s|].
    + destruct Inv as (ns & Es & Hs & Hsound & Hcomplete).
      exists ns. split; [exact Es|]. split; [exact Hs|]. split.
      * intros n Hn. destruct (Hsound n Hn) as (t & Hin & Hst).
        exists t. split; [apply in_or_app; now left | exact Hst].
      * intros Hlt t n Hin Hst. apply in_app_or in Hin as [Hin|[Hin|[]]].
        -- now apply (Hcomplete Hlt t).
        -- injection Hin as <- <-. destruct Hst as [_ Hst]. cbn [fst] in Hst.
           unfold sizeof_word in Hl. lia.
    + intros op Hin Hst. apply in_app_or in Hin as [Hin|[<-|[]]].
      * exact (Inv _ Hin Hst).
      * destruct Hst as [_ Hst]. cbn [fst] in Hst.
        unfold sizeof_word in Hl. lia.
  - (* the call is for another key *)
    destruct (HASH_FIND_INT results k) as [s|].
    + destruct Inv as (ns & Es & Hs & Hsound & Hcomplete).
      exists ns. split; [exact Es|]. split; [exact Hs|]. split.
      * intros n Hn. destruct (Hsound n Hn) as (t & Hin & Hst).
        exists t. split; [apply in_or_app; now left | exact Hst].
      * intros Hlt t n Hin Hst. apply in_app_or in Hin as [Hin|[Hin|[]]].
        -- now apply (Hcomplete Hlt t).
        -- injection Hin as <- <-. destruct Hst as [Hst _]. now elim Hk.
    + intros op Hin Hst. apply in_app_or in Hin as [Hin|[<-|[]]].
      * exact (Inv _ Hin Hst).
      * destruct Hst as [Hst _]. now elim Hk.
Qed.

Lemma run_summary_lists (fresh : nat -> string) (k : Z) :
  (forall n, fresh n = "") ->
  forall todo done results results',
    StronglySorted le (map snd (done ++ todo)) ->
    match HASH_FIND_INT results k with
    | Some s => summary_lists k done (line_summary s)
    | None => forall op, In op done -> ~ stores_under k op
    end ->
    run_upserts fresh todo results = Some results' ->
    match HASH_FIND_INT results' k with
    | Some s => summary_lists k (done ++ todo) (line_summary s)
    | None => forall op, In op (done ++ todo) -> ~ stores_under k op
    end.
Proof.
  intro Hfresh. induction todo as [|[token m] todo IH];
    intros done results results' Hs Inv E.
  - cbn [run_upserts] in E. injection E as <-. now rewrite app_nil_r.
  - cbn [run_upserts] in E.
    destruct (upsert fresh token m results) as [t|] eqn:Eu; [|discriminate].
    change (done ++ (token, m) :: todo) with (done ++ [(token, m)] ++ todo).
    rewrite app_assoc. apply (IH _ t).
    + now rewrite <- app_assoc.
    + apply (upsert_summary_lists fresh done token m results t k Hfresh);
        [|exact Inv|exact Eu].
      rewrite map_app in Hs. cbn [map snd] in Hs.
      apply sorted_before in Hs. rewrite Forall_map in Hs. exact Hs.
    + exact E.
Qed.

(** X14.  With zero-filled blocks, the summary of the record
    [find_result] returns for a key after [main]'s loop is made of markers
    only: the markers of line numbers in strictly increasing order (so
    each at most once), each the number of a line with a token stored
    under that key; and while the summary is below the truncation
    threshold of 16519 bytes, every such line is listed.  The loop has no
    outcome when [line_number] would pass [INT_MAX], so the line numbers
    are those of an [int]. *)
Theorem summary_line_numbers (m : machine) (fresh : nat -> string)
    (lines : list string) (results : table) (k : Z) (s : result_struct) :
  (forall n, fresh n = "") ->
  main_loop m fresh lines indeterminate 0 [] = Some results ->
  find_result results k = Some s ->
  summary_lists k (line_ops lines 0) (line_summary s) /\
  (Z.of_nat (List.length lines) < INT_MAX)%Z.
Proof.
  intros Hfresh E F.
  apply main_loop_defined in E as (_ & [Hn _] & E). split; [|exact Hn].
  pose proof (run_summary_lists fresh k Hfresh (line_ops lines 0) [] []
                results (line_ops_sorted lines 0)) as H.
  unfold find_result in F. rewrite F in H. apply H; [|exact E].
  cbn [HASH_FIND_INT]. intros op [].
Qed.

Lemma summary_line_numbers_sample :
  summary_lists (hash "cats") (line_ops (read_lines sample) 0) " 1 2" /\
  (Z.of_nat (List.length (read_lines sample)) < INT_MAX)%Z.
Proof.
  apply (summary_line_numbers ilp32 zeroed (read_lines sample) sample_table
           (hash "cats") (mk_result (hash "cats") "cats" " 1 2")).
  - reflexivity.
  - vm_compute. reflexivity.
  - vm_compute. reflexivity.
Defined.

(** ** The room in [line_summary] *)

Lemma succ_digits (d : uint) :
  nb_digits (Little.succ d) = nb_digits d \/
  (nb_digits (Little.succ d) = S (nb_digits d) /\
   S (Unsigned.of_lu d) = 10 ^ nb_digits d).
Proof.
  induction d as [|d IH|d IH|d IH|d IH|d IH|d IH|d IH|d IH|d IH|d IH];
    try (left; reflexivity).
  - right. split; reflexivity.
  - destruct IH as [E|[E V]].
    + left. cbn [Little.succ nb_digits]. now rewrite E.
    + right. cbn [Little.succ nb_digits Unsigned.of_lu].
      rewrite E. split; [reflexivity|].
      rewrite Nat.pow_succ_r', <- V. lia.
Qed.

Lemma to_lu_digits (n : nat) :
  1 <= nb_digits (Unsigned.to_lu n) /\
  (1 <= n -> 10 ^ (nb_digits (Unsigned.to_lu n) - 1) <= n).
Proof.
  induction n as [|n [IH1 IH2]].
  - split; [apply Nat.le_refl | intro H; inversion H].
  - rewrite Unsigned.to_lu_succ.
    destruct (succ_digits (Unsigned.to_lu n)) as [E|[E V]]; rewrite E.
    + split; [exact IH1|]. intros _. destruct n as [|n].
      * apply Nat.le_refl.
      * apply Nat.le_trans with (S n); [apply IH2|]; lia.
    + split; [lia|]. intros _. rewrite Unsigned.of_to_lu in V.
      replace (S (nb_digits (Unsigned.to_lu n)) - 1)
        with (nb_digits (Unsigned.to_lu n)) by lia.
      rewrite <- V. apply Nat.le_refl.
Qed.

Lemma strlen_string_of_uint (d : uint) :
  strlen (NilEmpty.string_of_uint d) = nb_digits d.
Proof.
  unfold strlen. induction d; cbn [NilEmpty.string_of_uint nb_digits length];
    congruence.
Qed.

(** A number below [10 ^ digits] is written with at most [digits]
    digits. *)
Lemma strlen_decimal (n digits : nat) :
  1 <= digits -> n < 10 ^ digits -> strlen (decimal n) <= digits.
Proof.
  intros Hd Hn. rewrite decimal_NilEmpty, strlen_string_of_uint.
  rewrite Unsigned.to_uint_alt, DecimalFacts.nb_digits_rev.
  destruct (to_lu_digits n) as [H1 H2].
  destruct n as [|n].
  - exact Hd.
  - assert (10 ^ (nb_digits (Unsigned.to_lu (S n)) - 1) < 10 ^ digits) as L.
    { eapply Nat.le_lt_trans; [apply H2; lia | exact Hn]. }
    apply Nat.pow_lt_mono_r_iff in L; lia.
Qed.

Lemma strlen_sprintf_d (n : nat) :
  (Z.of_nat n < 2 ^ 31)%Z -> strlen (sprintf_d n) < 16.
Proof.
  intro H. rewrite sprintf_d_decimal.
  assert (strlen (decimal n) <= 10) as L.
  { apply strlen_decimal; [lia|]. apply Nat2Z.inj_lt.
    rewrite Nat2Z.inj_pow. change (Z.of_nat 10 ^ Z.of_nat 10)%Z
      with 10000000000%Z. lia. }
  unfold strlen in *. cbn [length]. lia.
Qed.

Lemma cat_line_number_fits (summary : string) (n : nat) :
  (Z.of_nat n < 2 ^ 31)%Z ->
  strlen summary < sizeof_line_summary ->
  strlen (cat_line_number summary (sprintf_d n)) < sizeof_line_summary.
Proof.
  intros Hn Hs. rewrite cat_line_number_unfold.
  destruct (Nat.ltb_spec (strlen summary) summary_limit) as [Hlt|Hge];
    [|exact Hs].
  destruct (strstr summary (sprintf_d n)); [exact Hs|].
  pose proof (strcat_fits summary (sprintf_d n) Hlt (strlen_sprintf_d n Hn)).
  lia.
Qed.

Lemma run_summaries_fit (fresh : nat -> string) :
  (forall n, strlen (fresh n) < sizeof_line_summary) ->
  forall ops results results',
    Forall (fun op => (Z.of_nat (snd op) < 2 ^ 31)%Z) ops ->
    Forall (fun s => strlen (line_summary s) < sizeof_line_summary) results ->
    run_upserts fresh ops results = Some results' ->
    Forall (fun s => strlen (line_summary s) < sizeof_line_summary) results'.
Proof.
  intro Hfresh. induction ops as [|[token m] ops IH];
    intros results results' Hops Hres E.
  - cbn [run_upserts] in E. now injection E as <-.
  - cbn [run_upserts] in E.
    destruct (upsert fresh token m results) as [t|] eqn:Eu; [|discriminate].
    inversion Hops as [|? ? Hm Hops']; subst. cbn [snd] in Hm.
    apply (IH t results' Hops'); [|exact E].
    unfold upsert in Eu.
    destruct (Nat.lt_trichotomy (strlen token) sizeof_word) as [Hl|[Hl|Hl]].
    + rewrite add_result_shape in Eu by exact Hl. injection Eu as <-.
      assert (strlen (summary_read fresh results (hash token))
              < sizeof_line_summary) as Hr.
      { unfold summary_read.
        destruct (HASH_FIND_INT results (hash token)) as [s|] eqn:F;
          [|apply Hfresh].
        rewrite Forall_forall in Hres. apply Hres. now apply find_In in F. }
      pose proof (cat_line_number_fits _ m Hm Hr) as Hc.
      destruct (HASH_FIND_INT results (hash token)).
      * apply store_Forall; [exact Hres | exact Hc].
      * apply Forall_app. split; [exact Hres|]. constructor; [exact Hc|].
        constructor.
    + rewrite add_result_overflows in Eu by exact Hl. discriminate.
    + rewrite add_result_rejects in Eu by exact Hl. now injection Eu as <-.
Qed.

(** X15.  [line_summary] never overflows: when every block [malloc]
    returns holds a string that ends inside the array and the input has
    fewer than 2^31 lines (the range of [line_number]), every summary of
    the table [main]'s loop leaves fits the array of 16535 bytes with its
    terminator. *)
Theorem line_summary_fits (m : machine) (fresh : nat -> string)
    (lines : list string) (results : table) :
  (forall n, strlen (fresh n) < sizeof_line_summary) ->
  (Z.of_nat (List.length lines) < 2 ^ 31)%Z ->
  main_loop m fresh lines indeterminate 0 [] = Some results ->
  Forall (fun s => strlen (line_summary s) + 1 <= LONGEST_LINE_SUMMARY_LEN)
         results.
Proof.
  intros Hfresh Hlines E. apply main_loop_calls in E.
  assert (Forall (fun s => strlen (line_summary s) < sizeof_line_summary)
                 results) as H.
  { apply (run_summaries_fit fresh Hfresh (line_ops lines 0) [] results);
      [|constructor|exact E].
    apply Forall_forall. intros [token n] Hin. cbn [snd].
    apply line_ops_In in Hin as (i & l & Hl & -> & _).
    assert (i < List.length lines) by (apply nth_error_Some; congruence).
    lia. }
  apply Forall_forall. intros s Hs. rewrite Forall_forall in H.
  specialize (H s Hs). unfold sizeof_line_summary in H. lia.
Qed.

Lemma line_summary_fits_sample :
  Forall (fun s => strlen (line_summary s) + 1 <= LONGEST_LINE_SUMMARY_LEN)
         sample_table.
Proof.
  apply (line_summary_fits ilp32 zeroed (read_lines sample) sample_table).
  - intro n. apply Nat.ltb_lt. reflexivity.
  - vm_compute. reflexivity.
  - vm_compute. reflexivity.
Defined.

(** ** Runs without an outcome *)


(** ** The text of the report *)

Lemma print_results_lines (results : table) :
  print_results results
  = lines_text (map (fun s => (word s ++ line_summary s)%string) results).
Proof.
  induction results as [|s rest IH]; [reflexivity|].
  cbn [print_results map lines_text]. unfold report_line.
  now rewrite IH, !append_assoc.
Qed.

Lemma text_lines_line (line rest : string) :
  all_chars (fun c => negb (Ascii.eqb c newline)) line = true ->
  text_lines (line ++ String newline rest) = line :: text_lines rest.
Proof.
  induction line as [|c line IH]; intro H.
  - cbn [append text_lines]. now rewrite Ascii.eqb_refl.
  - cbn [all_chars] in H. apply andb_prop in H as [Hc Hl].
    apply negb_true_iff in Hc. cbn [append text_lines].
    now rewrite Hc, (IH Hl).
Qed.

(** A text made of lines without newlines has these lines. *)
Lemma text_lines_text (lines : list string) :
  Forall (fun line =>
            all_chars (fun c => negb (Ascii.eqb c newline)) line = true)
         lines ->
  text_lines (lines_text lines) = lines.
Proof.
  induction 1 as [|line lines Hl _ IH]; [reflexivity|].
  cbn [lines_text]. now rewrite (text_lines_line _ _ Hl), IH.
Qed.

(** The word on a line that starts with a word without a space, followed
    by nothing or by a space. *)
Lemma line_word_word (w rest : string) :
  all_chars (fun c => negb (Ascii.eqb c " ")) w = true ->
  delimited (first_char rest) ->
  line_word (w ++ rest) = w.
Proof.
  intros Hw Hr. induction w as [|c w IH].
  - destruct rest as [|d rest]; [reflexivity|]. simpl in Hr. subst d.
    reflexivity.
  - cbn [all_chars] in Hw. apply andb_prop in Hw as [Hc Hw].
    apply negb_true_iff in Hc. cbn [append line_word].
    now rewrite Hc, (IH Hw).
Qed.



(** The bytes of the tokens and of the summaries. *)
Lemma token_byte_plain (c : ascii) :
  (islower c || Ascii.eqb c apostrophe) = true ->
  negb (Ascii.eqb c NUL) = true /\
  negb (Ascii.eqb c " ") = true /\
  negb (Ascii.eqb c newline) = true.
Proof.
  each_byte c; discriminate.
Qed.

Lemma summary_byte_plain (c : ascii) :
  (isdigit c || Ascii.eqb c delimitor) = true ->
  negb (Ascii.eqb c newline) = true.
Proof.
  each_byte c; discriminate.
Qed.

Lemma all_chars_weaken (p q : ascii -> bool) (s : string) :
  (forall c, p c = true -> q c = true) ->
  all_chars p s = true -> all_chars q s = true.
Proof.
  intro H. induction s as [|c s IH]; [reflexivity|]. cbn [all_chars].
  intro E. apply andb_prop in E as [Ec Es]. now rewrite (H c Ec), IH.
Qed.

Lemma line_tokens_lower (test_line token : string) :
  In token (line_tokens test_line) ->
  all_chars (fun c => islower c || Ascii.eqb c apostrophe) token = true.
Proof.
  intro H.
  apply line_tokens_runs in H as (run & (x & y & _ & _ & Hw & _) & ->).
  unfold lowercase. induction run as [|c run IH]; [reflexivity|].
  cbn [all_chars map_chars]. cbn [all_chars] in Hw.
  apply andb_prop in Hw as [Hc Hw].
  now rewrite (tolower_token_byte c Hc), IH.
Qed.

(** With zero-filled blocks every summary is plain. *)

Lemma cat_line_number_plain (summary : string) (n : nat) :
  plain_summary summary ->
  plain_summary (cat_line_number summary (sprintf_d n)).
Proof.
  intros [Hf Ha]. destruct (cat_extends summary (sprintf_d n)) as [rest E].
  rewrite cat_line_number_unfold.
  destruct (Nat.ltb (strlen summary) summary_limit); [|now split].
  destruct (strstr summary (sprintf_d n)); [now split|]. split.
  - destruct summary; [reflexivity | exact Hf].
  - rewrite all_chars_append, Ha, sprintf_d_decimal. cbn [all_chars andb].
    rewrite orb_true_r. cbn [andb].
    apply (all_chars_weaken isdigit); [|apply decimal_digits].
    intros c ->. reflexivity.
Qed.

Lemma run_summaries_plain (fresh : nat -> string) :
  (forall n, fresh n = "") ->
  forall ops results results',
    Forall (fun s => plain_summary (line_summary s)) results ->
    run_upserts fresh ops results = Some results' ->
    Forall (fun s => plain_summary (line_summary s)) results'.
Proof.
  intro Hfresh. induction ops as [|[token n] ops IH];
    intros results results' Hres E.
  - cbn [run_upserts] in E. now injection E as <-.
  - cbn [run_upserts] in E.
    destruct (upsert fresh token n results) as [t|] eqn:Eu; [|discriminate].
    apply (IH t results'); [|exact E].
    unfold upsert in Eu.
    destruct (Nat.lt_trichotomy (strlen token) sizeof_word) as [Hl|[Hl|Hl]].
    + rewrite add_result_shape in Eu by exact Hl. injection Eu as <-.
      assert (plain_summary (summary_read fresh results (hash token))) as Hr.
      { unfold summary_read.
        destruct (HASH_FIND_INT results (hash token)) as [s|] eqn:F.
        - rewrite Forall_forall in Hres. apply Hres. now apply find_In in F.
        - rewrite Hfresh. now split. }
      pose proof (cat_line_number_plain _ n Hr) as Hc.
      destruct (HASH_FIND_INT results (hash token)).
      * apply store_Forall; [exact Hres | exact Hc].
      * apply Forall_app. split; [exact Hres|]. constructor; [exact Hc|].
        constructor.
    + rewrite add_result_overflows in Eu by exact Hl. discriminate.
    + rewrite add_result_rejects in Eu by exact Hl. now injection Eu as <-.
Qed.

Lemma adjacent_map (A B : Type) (f : A -> B) (l : list A) (i : nat) (u v : B) :
  nth_error (map f l) i = Some u -> nth_error (map f l) (S i) = Some v ->
  exists a b, nth_error l i = Some a /\ nth_error l (S i) = Some b /\
              u = f a /\ v = f b.
Proof.
  rewrite !nth_error_map. intros Hu Hv.
  destruct (nth_error l i) as [a|]; [|discriminate].
  destruct (nth_error l (S i)) as [b|]; [|discriminate].
  injection Hu as <-. injection Hv as <-. now exists a, b.
Qed.

(** ** A marker in a summary *)

(** * The properties of the specification *)


(** C2.  The report for the sample is the three lines "cats 1 2",
    "chase 1 2", "dogs 1 2" only on a run where the calls of [getline]
    are defined and the blocks [malloc] returns are zero-filled.  Where
    [size_t] has 8 bytes, or [test_line] does not start as a null pointer,
    the first call of [getline] is undefined; and with blocks that hold
    the bytes "zz" the three lines are "catszz 1 2", "chasezz 1 2",
    "dogszz 1 2". *)
Theorem main_sample :
  (forall fresh, main lp64 fresh sample = None) /\
  (forall fresh,
      main {| sizeof_size_t := 4; test_line_null := false |} fresh sample
      = None) /\
  main ilp32 (fun _ => "zz") sample
  = Some (lines_text ["catszz 1 2"; "chasezz 1 2"; "dogszz 1 2"]) /\
  main ilp32 zeroed sample = Some sample_report /\
  sample_report = lines_text ["cats 1 2"; "chase 1 2"; "dogs 1 2"].
Proof.
  split; [intro fresh; reflexivity|].
  split; [intro fresh; reflexivity|].
  repeat split; vm_compute; reflexivity.
Qed.

(** C3.  What [main] prints is one line per record of the final table,
    the record's word followed by its summary, and the words of any two
    adjacent lines are in ascending [strcmp] order, which is the
    byte-wise order.  With zero-filled blocks the lines can be read back
    from the text: cut at its newlines, the text gives these lines, the
    part of each line before its first space is the word of its record,
    and these words are in ascending order from line to line. *)
Theorem report_ordered (m : machine) (fresh : nat -> string)
    (stdin out : string) :
  main m fresh stdin = Some out ->
  exists results records,
    main_loop m fresh (read_lines stdin) indeterminate 0 [] = Some results /\
    Permutation records results /\
    out = lines_text
            (map (fun s => (word s ++ line_summary s)%string) records) /\
    (forall i a b,
        nth_error records i = Some a ->
        nth_error records (S i) = Some b ->
        (strcmp (word a) (word b) <= 0)%Z /\
        bytewise_le (word a) (word b)) /\
    ((forall n, fresh n = "") ->
     map line_word (text_lines out) = map word records /\
     forall i u v,
       nth_error (text_lines out) i = Some u ->
       nth_error (text_lines out) (S i) = Some v ->
       (strcmp (line_word u) (line_word v) <= 0)%Z /\
       bytewise_le (line_word u) (line_word v)).
Proof.
  unfold main. intro H.
  destruct (main_loop m fresh (read_lines stdin) indeterminate 0 [])
    as [results|] eqn:E; [|discriminate].
  injection H as <-. exists results, (sort_by_name results).
  split; [reflexivity|]. split; [apply HASH_SORT_permutation|].
  split; [apply print_results_lines|].
  apply main_loop_calls in E.
  assert (Forall (fun s => all_chars
                             (fun c => islower c || Ascii.eqb c apostrophe)
                             (word s) = true) results) as Hwords.
  { eapply (words_invariant fresh
              (fun w => all_chars
                          (fun c => islower c || Ascii.eqb c apostrophe) w
                        = true));
      [reflexivity| |constructor|exact E].
    intros [token n] Hin _. simpl.
    apply line_ops_In in Hin as (j & l & _ & _ & Ht).
    now apply line_tokens_lower with l. }
  rewrite Forall_forall in Hwords.
  assert (forall i a b,
             nth_error (sort_by_name results) i = Some a ->
             nth_error (sort_by_name results) (S i) = Some b ->
             (strcmp (word a) (word b) <= 0)%Z /\
             bytewise_le (word a) (word b)) as Hadjacent.
  { intros i a b Ha Hb.
    pose proof (sort_by_name_adjacent results i a b Ha Hb) as Hc.
    split; [exact Hc|]. apply strcmp_bytewise; [|exact Hc].
    apply (all_chars_weaken
             (fun c => islower c || Ascii.eqb c apostrophe));
      [intros c Hx; apply (token_byte_plain c Hx)|].
    apply Hwords, sort_by_name_In. now apply nth_error_In with i. }
  split; [exact Hadjacent|].
  intro Hfresh.
  assert (Forall (fun s => plain_summary (line_summary s)) results)
    as Hsummaries
    by (apply (run_summaries_plain fresh Hfresh
                 (line_ops (read_lines stdin) 0) [] results);
        [constructor | exact E]).
  rewrite Forall_forall in Hsummaries.
  assert (text_lines (print_results (sort_by_name results))
          = map (fun s => (word s ++ line_summary s)%string)
                (sort_by_name results)) as Hlines.
  { rewrite print_results_lines. apply text_lines_text.
    apply Forall_forall. intros line Hin.
    apply in_map_iff in Hin as (s & <- & Hs).
    apply (proj1 (sort_by_name_In results s)) in Hs.
    rewrite all_chars_append. apply andb_true_intro. split.
    - apply (all_chars_weaken
               (fun c => islower c || Ascii.eqb c apostrophe));
        [intros c Hx; apply (token_byte_plain c Hx) | now apply Hwords].
    - apply (all_chars_weaken
               (fun c => isdigit c || Ascii.eqb c delimitor));
        [exact summary_byte_plain | now apply Hsummaries]. }
  assert (forall s, In s (sort_by_name results) ->
                    line_word (word s ++ line_summary s) = word s) as Hword.
  { intros s Hs. apply (proj1 (sort_by_name_In results s)) in Hs.
    apply line_word_word.
    - apply (all_chars_weaken
               (fun c => islower c || Ascii.eqb c apostrophe));
        [intros c Hx; apply (token_byte_plain c Hx) | now apply Hwords].
    - now apply Hsummaries. }
  rewrite Hlines. split.
  - rewrite map_map. apply map_ext_in. exact Hword.
  - intros i u v Hu Hv.
    destruct (adjacent_map _ _ _ _ i u v Hu Hv) as (a & b & Ha & Hb & -> & ->).
    rewrite (Hword a) by now apply nth_error_In with i.
    rewrite (Hword b) by now apply nth_error_In with (S i).
    now apply Hadjacent with i.
Qed.

(** C4.  For a word of at most 45 bytes, a second [upsert] of the same word
    and line number leaves the table, and with it the record's summary, as
    the first one left it.  The first call is undefined only for a word of
    exactly 45 bytes (C10). *)
Theorem upsert_twice (fresh : nat -> string) (results : table)
    (token : string) (line_number : nat) :
  strlen token <= LONGEST_WORD_LEN ->
  match upsert fresh token line_number results with
  | Some once =>
      upsert fresh token line_number once = Some once /\
      exists s, HASH_FIND_INT once (hash token) = Some s
  | None => strlen token = LONGEST_WORD_LEN
  end.
Proof.
  intro Hl. unfold upsert.
  destruct (add_result_cases fresh (hash token) token
              (sprintf_d line_number) results)
    as [[H _]|[[H E]|(H & once & E & F & _)]].
  - unfold sizeof_word in H. lia.
  - now rewrite E.
  - rewrite E. split; [now apply add_result_twice with results|eauto].
Qed.

(** C5.  A name longer than 45 bytes leaves the table as it is, with a
    defined result, whatever the key and the line number; and no word of
    the report is longer than 45 bytes. *)
Theorem oversize_rejected (fresh : nat -> string) :
  (forall k name line_number results,
      LONGEST_WORD_LEN < strlen name ->
      add_result fresh k name line_number results = Some results) /\
  (forall m stdin results,
      main_loop m fresh (read_lines stdin) indeterminate 0 [] = Some results ->
      Forall (fun s => strlen (word s) <= LONGEST_WORD_LEN)
        (sort_by_name results)).
Proof.
  split; [intros; now apply add_result_rejects|].
  intros m stdin results E. apply main_loop_calls in E.
  assert (Forall (fun s => strlen (word s) < sizeof_word) results) as H.
  { eapply (words_invariant fresh (fun w => strlen w < sizeof_word));
      [|auto|constructor|exact E].
    unfold sizeof_word, LONGEST_WORD_LEN. simpl. lia. }
  rewrite Forall_forall in H |- *. intros s Hs.
  apply sort_by_name_In, H in Hs. unfold sizeof_word in Hs. lia.
Qed.

(** C6, as amended.  For a word shorter than 45 bytes whose key is not in
    the table yet, [upsert] adds one record at the end of the table; its
    key is the hash of the word and its [word] is the token.  When the
    block the allocator returned reads as an empty string, the summary of
    the new record is exactly the marker of the line. *)
Theorem new_record (fresh : nat -> string) (results : table)
    (token : string) (line_number : nat) :
  strlen token < LONGEST_WORD_LEN ->
  HASH_FIND_INT results (hash token) = None ->
  exists s,
    upsert fresh token line_number results = Some (results ++ [s]) /\
    key s = hash token /\
    word s = token /\
    (fresh (List.length results) = "" ->
     line_summary s = sprintf_d line_number).
Proof.
  intros Hl Hf. unfold upsert.
  rewrite add_result_accepts by exact Hl.
  unfold summary_read. rewrite Hf, store_new by auto.
  eexists; split; [reflexivity|]. repeat split. simpl.
  intros ->. apply cat_line_number_fresh.
Qed.


(** C8, as amended.  An [upsert] of a token shorter than 45 bytes whose key
    is in the table leaves under that key a record with the token as its
    word, whatever the word was.  After a sequence of calls none of which
    has a token of exactly 45 bytes, the word of every record is the most
    recent token shorter than 45 bytes that hashes to its key, and the
    word it had before when there is none. *)
Theorem word_overwritten (fresh : nat -> string) :
  (forall results token line_number s,
      strlen token < LONGEST_WORD_LEN ->
      HASH_FIND_INT results (hash token) = Some s ->
      exists results' s',
        upsert fresh token line_number results = Some results' /\
        HASH_FIND_INT results' (hash token) = Some s' /\
        word s' = token) /\
  (forall ops results,
      (forall op, In op ops -> strlen (fst op) <> LONGEST_WORD_LEN) ->
      exists results',
        run_upserts fresh ops results = Some results' /\
        forall k s',
          HASH_FIND_INT results' k = Some s' ->
          match last_stored k ops None with
          | Some token => word s' = token
          | None =>
              exists s, HASH_FIND_INT results k = Some s /\ word s' = word s
          end).
Proof.
  split.
  - intros results token n s Hl F. unfold upsert.
    destruct (add_result_lookup fresh (hash token) token (sprintf_d n)
                results Hl) as (results' & E & F' & _).
    exists results'. eexists. split; [exact E|]. split; [exact F'|reflexivity].
  - intros ops results Hops.
    destruct (run_defined fresh ops results Hops) as [results' E].
    exists results'. split; [exact E|]. intros k s' F'.
    pose proof (last_stored_word fresh k ops results results' E) as H.
    rewrite F' in H. simpl in H.
    destruct (last_stored k ops None) as [token|]; [congruence|].
    destruct (HASH_FIND_INT results k) as [s|]; [|discriminate].
    exists s. split; [reflexivity|]. simpl in H. congruence.
Qed.

(** C9, as amended.  The scan keeps the number of bytes of the buffer.
    Each byte before the first NUL byte is replaced on its own: an
    upper-case letter by its lower-case form, a lower-case letter and the
    apostrophe by themselves, any other byte by a space.  The bytes from
    the first NUL byte on are left as they were. *)
Theorem scan_line_bytes (test_line : string) :
  strlen (scan_line test_line) = strlen test_line /\
  (forall i c,
      i < strlen (cstr test_line) ->
      String.get i test_line = Some c ->
      String.get i (scan_line test_line) = Some (scan_char c) /\
      (isupper c = true -> scan_char c = ascii_of_N (uchar c + 32)) /\
      (islower c = true -> scan_char c = c) /\
      (c = apostrophe -> scan_char c = c) /\
      (isalpha c = false -> c <> apostrophe -> scan_char c = " "%char)) /\
  (forall i,
      strlen (cstr test_line) <= i ->
      String.get i (scan_line test_line) = String.get i test_line).
Proof.
  split; [apply strlen_scan_line|]. split; [|apply scan_line_from_NUL].
  intros i c Hi Hg. split; [now apply scan_line_before_NUL|].
  repeat split.
  - intro H. rewrite scan_char_alpha by (unfold isalpha; now rewrite H).
    unfold tolower. now rewrite H.
  - intro H.
    rewrite scan_char_alpha by (unfold isalpha; rewrite H; apply orb_true_r).
    unfold tolower. now rewrite islower_not_upper.
  - intros ->. exact scan_char_apostrophe.
  - apply scan_char_other.
Qed.

(** C10.  A name of exactly 45 bytes passes the length test of
    [add_result]; [strcpy] then makes 46 stores, the last of them, of the
    terminator, at index 45, which is not an index of the 45-byte array
    [word]: the copy is undefined, and so is the call. *)
Theorem strcpy_past_word (name : string) :
  strlen name = LONGEST_WORD_LEN ->
  Nat.ltb sizeof_word (strlen name) = false /\
  List.length (strcpy_writes name) = 46 /\
  In (45, NUL) (strcpy_writes name) /\
  sizeof_word <= 45 /\
  strcpy sizeof_word name = None /\
  forall fresh k line_number results,
    add_result fresh k name line_number results = None.
Proof.
  intro H. repeat split.
  - rewrite H. reflexivity.
  - rewrite strcpy_writes_length, H. reflexivity.
  - change 45 with LONGEST_WORD_LEN. rewrite <- H.
    apply strcpy_writes_terminator.
  - apply Nat.le_refl.
  - apply strcpy_overflow. rewrite H. apply Nat.le_refl.
  - intros. now apply add_result_overflows.
Qed.

(** * The properties at concrete inputs *)










Lemma report_ordered_sample :
  exists results records,
    main_loop ilp32 zeroed (read_lines sample) indeterminate 0 []
    = Some results /\
    Permutation records results /\
    sample_report
    = lines_text
        (map (fun s => (word s ++ line_summary s)%string) records) /\
    (forall i a b,
        nth_error records i = Some a ->
        nth_error records (S i) = Some b ->
        (strcmp (word a) (word b) <= 0)%Z /\
        bytewise_le (word a) (word b)) /\
    ((forall n, zeroed n = "") ->
     map line_word (text_lines sample_report) = map word records /\
     forall i u v,
       nth_error (text_lines sample_report) i = Some u ->
       nth_error (text_lines sample_report) (S i) = Some v ->
       (strcmp (line_word u) (line_word v) <= 0)%Z /\
       bytewise_le (line_word u) (line_word v)).
Proof.
  apply (report_ordered ilp32 zeroed sample sample_report).
  vm_compute. reflexivity.
Defined.

Lemma upsert_twice_dogs :
  match upsert zeroed "dogs" 1 [] with
  | Some once =>
      upsert zeroed "dogs" 1 once = Some once /\
      exists s, HASH_FIND_INT once (hash "dogs") = Some s
  | None => strlen "dogs" = LONGEST_WORD_LEN
  end.
Proof.
  apply (upsert_twice zeroed [] "dogs" 1).
  unfold LONGEST_WORD_LEN. simpl. lia.
Defined.

Lemma oversize_rejected_token46 :
  add_result zeroed (hash token46) token46 (sprintf_d 1) sample_table
  = Some sample_table.
Proof.
  apply (proj1 (oversize_rejected zeroed)).
  apply Nat.ltb_lt. vm_compute. reflexivity.
Defined.

(** A word longer than 45 bytes is given with a key that is not in the
    table and no record is created; and a first occurrence whose block
    holds the bytes "zz" gets the summary "zz 1". *)
Lemma new_record_counterexample :
  (HASH_FIND_INT [] (hash token46) = None /\
   strlen token46 = 46 /\
   upsert zeroed token46 1 [] = Some []) /\
  (HASH_FIND_INT [] (hash "a") = None /\
   upsert (fun _ => "zz") "a" 1 []
   = Some [mk_result (hash "a") "a" "zz 1"]).
Proof. repeat split; vm_compute; reflexivity. Qed.

Lemma new_record_dogs :
  exists s,
    upsert zeroed "dogs" 1 [] = Some ([] ++ [s]) /\
    key s = hash "dogs" /\
    word s = "dogs" /\
    (zeroed (List.length (@nil result_struct)) = "" ->
     line_summary s = sprintf_d 1).
Proof.
  apply (new_record zeroed [] "dogs" 1).
  - unfold LONGEST_WORD_LEN. simpl. lia.
  - reflexivity.
Defined.


(** "fzyllni" and the 46-byte token have the same hash: after the first,
    the key of the second is in the table, and the second leaves the word
    as it was. *)
Lemma word_overwritten_counterexample :
  exists results s,
    upsert zeroed collider 1 [] = Some results /\
    HASH_FIND_INT results (hash token46) = Some s /\
    upsert zeroed token46 2 results = Some results /\
    word s = collider /\
    strlen collider = 7 /\ strlen token46 = 46.
Proof.
  exists [mk_result (hash collider) collider (sprintf_d 1)].
  eexists. repeat split; vm_compute; reflexivity.
Qed.

Lemma word_overwritten_collision :
  exists results' s',
    upsert zeroed "c'" 2 [mk_result (hash "ae") "ae" " 1"] = Some results' /\
    HASH_FIND_INT results' (hash "c'") = Some s' /\
    word s' = "c'".
Proof.
  apply (proj1 (word_overwritten zeroed)
           [mk_result (hash "ae") "ae" " 1"] "c'" 2
           (mk_result (hash "ae") "ae" " 1")).
  - unfold LONGEST_WORD_LEN. simpl. lia.
  - vm_compute. reflexivity.
Defined.

(** In the buffer ["A\000B\n"] the letter "B" and the newline follow the
    NUL byte: the scan leaves both as they are. *)
Lemma scan_line_counterexample :
  String.get 2 nul_line = Some "B"%char /\
  isalpha "B" = true /\
  tolower "B" = "b"%char /\
  String.get 2 (scan_line nul_line) = Some "B"%char /\
  String.get 3 nul_line = Some newline /\
  String.get 3 (scan_line nul_line) = Some newline.
Proof. repeat split; vm_compute; reflexivity. Qed.

Lemma scan_line_bytes_upper :
  String.get 0 (scan_line nul_line) = Some (scan_char "A") /\
  (isupper "A" = true -> scan_char "A" = ascii_of_N (uchar "A" + 32)) /\
  (islower "A" = true -> scan_char "A" = "A"%char) /\
  ("A"%char = apostrophe -> scan_char "A" = "A"%char) /\
  (isalpha "A" = false -> "A"%char <> apostrophe ->
   scan_char "A" = " "%char).
Proof.
  apply (proj1 (proj2 (scan_line_bytes nul_line)) 0 "A"%char).
  - vm_compute. lia.
  - reflexivity.
Defined.

Lemma strcpy_past_word_token45 :
  Nat.ltb sizeof_word (strlen token45) = false /\
  List.length (strcpy_writes token45) = 46 /\
  In (45, NUL) (strcpy_writes token45) /\
  sizeof_word <= 45 /\
  strcpy sizeof_word token45 = None /\
  forall fresh k line_number results,
    add_result fresh k token45 line_number results = None.
Proof.
  apply (strcpy_past_word token45). vm_compute. reflexivity.
Defined.

